(** * Training callbacks: early stopping and model checkpointing

    A shallow embedding of [callbacks.py] (classes [EarlyStopping] and
    [ModelCheckpoint]) and the properties its specification states.

    Python [float] is IEEE 754 binary64, so monitored values are Rocq's
    primitive floats ([PrimFloat.float]): [float("inf")] is [infinity],
    [<] is [PrimFloat.ltb], and [+], [-] round exactly as they do in
    CPython.  Python [int] is [Z], [str] is [string], a [dict] keyed by
    strings is a [gmap string _]. *)

From Stdlib Require Import ZArith Lia Bool Floats QArith Ascii String.
From stdpp Require Import gmap strings list fin_maps pretty sorting.

(** * Part 1: the order of binary64 values

    The callbacks only compare floats and add or subtract [delta].  This
    module maps every non-NaN binary64 value to an integer [key] such that
    the IEEE comparison is the comparison of keys, and proves that rounding
    keeps [b - d <= b <= b + d] for [d >= 0].  Everything is derived from
    the specification of the primitive operations ([SpecFloat]). *)

Module Binary64.
Local Open Scope Z_scope.


(** [digits2_pos m] is the bit length of [m]. *)
Lemma digits2_pos_bounds m :
  2 ^ (Zpos (digits2_pos m) - 1) <= Zpos m < 2 ^ Zpos (digits2_pos m).
Proof.
  induction m as [m IH | m IH |]; cbn [digits2_pos].
  - rewrite Pos2Z.inj_succ.
    replace (Z.succ (Zpos (digits2_pos m)) - 1) with (Z.succ (Zpos (digits2_pos m) - 1)) by lia.
    rewrite !Z.pow_succ_r by lia. lia.
  - rewrite Pos2Z.inj_succ.
    replace (Z.succ (Zpos (digits2_pos m)) - 1) with (Z.succ (Zpos (digits2_pos m) - 1)) by lia.
    rewrite !Z.pow_succ_r by lia. lia.
  - cbn. lia.
Qed.

(** Appending [k] zero bits multiplies by [2^k]. *)
Lemma iter_xO m k : Zpos (Pos.iter xO m k) = Zpos m * 2 ^ Zpos k.
Proof.
  revert m. induction k using Pos.peano_ind; intros m.
  - cbn. lia.
  - rewrite Pos.iter_succ, Pos2Z.inj_succ, Z.pow_succ_r by lia.
    rewrite Pos2Z.inj_xO, IHk. lia.
Qed.

(** An invariant indexed by the number of steps survives [iter_pos]. *)
Section IterInv.
Context {A : Type} (f : A -> A) (Inv : Z -> A -> Prop).
Hypothesis step : forall k x, 0 <= k -> Inv k x -> Inv (k + 1) (f x).

Lemma iter_pos_inv n :
  forall k x, 0 <= k -> Inv k x -> Inv (k + Zpos n) (SpecFloat.iter_pos f n x).
Proof using step.
  induction n as [n IH | n IH |]; intros k x Hk HI; cbn [SpecFloat.iter_pos].
  - replace (k + Zpos n~1) with ((k + 1) + Zpos n + Zpos n) by lia.
    apply IH; [lia|]. apply IH; [lia|]. now apply step.
  - replace (k + Zpos n~0) with (k + Zpos n + Zpos n) by lia.
    apply IH; [lia|]. now apply IH.
  - now apply step.
Qed.
End IterInv.

(** After shifting [M] right by [k] bits the record holds the quotient, and
    its round and sticky bits are clear whenever the shift was exact. *)
Definition shr_inv (M : Z) (k : Z) (mrs : shr_record) : Prop :=
  shr_m mrs = M / 2 ^ k /\
  (M mod 2 ^ k = 0 -> shr_r mrs = false /\ shr_s mrs = false).

Lemma shr_1_inv M k mrs : 0 <= M -> 0 <= k -> shr_inv M k mrs -> shr_inv M (k + 1) (shr_1 mrs).
Proof.
  intros HM Hk [Hm Hex].
  assert (Hp : 0 < 2 ^ k) by (apply Z.pow_pos_nonneg; lia).
  assert (Hq : 0 <= M / 2 ^ k) by (apply Z.div_pos; lia).
  assert (Hdiv : M / 2 ^ (k + 1) = (M / 2 ^ k) / 2).
  { rewrite Z.pow_add_r, Z.pow_1_r by lia. now rewrite Z.div_div by lia. }
  assert (Hmod : M mod 2 ^ (k + 1) = 0 -> M mod 2 ^ k = 0 /\ (M / 2 ^ k) mod 2 = 0).
  { rewrite Z.pow_add_r, Z.pow_1_r by lia. intros H.
    rewrite Z.rem_mul_r in H by lia.
    pose proof (Z.mod_pos_bound M (2 ^ k) Hp).
    pose proof (Z.mod_pos_bound (M / 2 ^ k) 2 ltac:(lia)). nia. }
  destruct mrs as [m r s]; cbn [shr_m shr_r shr_s] in *.
  unfold shr_inv; rewrite Hdiv; rewrite <- Hm in *.
  destruct m as [| [p | p |] | p]; cbn [shr_1 shr_m shr_r shr_s]; try lia.
  - split; [reflexivity|]. intros H; apply Hmod in H as [H1 _].
    destruct (Hex H1) as [-> ->]. auto.
  - split; [apply Z.div_unique with 1; lia|].
    intros H; apply Hmod in H as [_ H2].
    replace (Zpos p~1 mod 2) with 1 in H2; [lia|].
    apply Z.mod_unique with (Zpos p); lia.
  - split; [apply Z.div_unique with 0; lia|].
    intros H; apply Hmod in H as [H1 _]. destruct (Hex H1) as [-> ->]. auto.
  - split; [reflexivity|]. intros H; apply Hmod in H as [_ H2]. vm_compute in H2. discriminate.
Qed.

(** [cano m e]: mantissa [m] is in canonical form at exponent [e]. *)
Definition cano (m : positive) (e : Z) : Prop := canonical_mantissa prec emax m e = true.
(** The value of a positive finite float, scaled by [2^1074] so that the
    smallest subnormal is 1 and every value is an integer. *)
Definition val (m : positive) (e : Z) : Z := Zpos m * 2 ^ (e + 1074).

Lemma fexp_eq e : fexp prec emax e = Z.max (e - 53) (-1074).
Proof. reflexivity. Qed.

Lemma cano_iff m e : cano m e <-> Z.max (Zpos (digits2_pos m) + e - 53) (-1074) = e.
Proof.
  unfold cano, canonical_mantissa. rewrite fexp_eq. split; intros H.
  - apply Z.eqb_eq in H. exact H.
  - apply Z.eqb_eq. exact H.
Qed.

Lemma digits2_pos_unique m d :
  2 ^ (d - 1) <= Zpos m < 2 ^ d -> Zpos (digits2_pos m) = d.
Proof.
  intros [Hl Hu]. pose proof (digits2_pos_bounds m) as [Hl' Hu'].
  assert (0 < d).
  { destruct (Z_lt_le_dec 0 d); [assumption|].
    assert (2 ^ d <= 2 ^ 0) by (destruct (Z_lt_le_dec d 0); [rewrite Z.pow_neg_r by lia; cbn; lia | apply Z.pow_le_mono_r; lia]).
    cbn in *; lia. }
  destruct (Z_lt_le_dec (Zpos (digits2_pos m)) d) as [Hlt|Hge].
  - assert (2 ^ Zpos (digits2_pos m) <= 2 ^ (d - 1)) by (apply Z.pow_le_mono_r; lia). lia.
  - destruct (Z_lt_le_dec d (Zpos (digits2_pos m))) as [Hlt|Hge']; [|lia].
    assert (2 ^ d <= 2 ^ (Zpos (digits2_pos m) - 1)) by (apply Z.pow_le_mono_r; lia). lia.
Qed.

Lemma digits2_pos_shift m k :
  Zpos (digits2_pos (Pos.iter xO m k)) = Zpos (digits2_pos m) + Zpos k.
Proof.
  apply digits2_pos_unique. rewrite iter_xO.
  pose proof (digits2_pos_bounds m) as [Hl Hu].
  assert (0 < 2 ^ Zpos k) by (apply Z.pow_pos_nonneg; lia).
  replace (Zpos (digits2_pos m) + Zpos k - 1) with ((Zpos (digits2_pos m) - 1) + Zpos k) by lia.
  rewrite !Z.pow_add_r by lia. nia.
Qed.

Lemma cano_emin m e : cano m e -> -1074 <= e.
Proof. rewrite cano_iff. lia. Qed.

Lemma cano_digits m e : cano m e -> Zpos (digits2_pos m) <= 53.
Proof. rewrite cano_iff. lia. Qed.

Lemma cano_lt_2p53 m e : cano m e -> Zpos m < 9007199254740992.
Proof.
  intros H%cano_digits. pose proof (digits2_pos_bounds m) as [_ Hu].
  assert (2 ^ Zpos (digits2_pos m) <= 2 ^ 53) by (apply Z.pow_le_mono_r; lia).
  change (2 ^ 53) with 9007199254740992 in *. lia.
Qed.

Lemma cano_normal m e : cano m e -> -1074 < e -> 4503599627370496 <= Zpos m.
Proof.
  rewrite cano_iff. intros H He.
  assert (Hd : Zpos (digits2_pos m) = 53) by lia.
  pose proof (digits2_pos_bounds m) as [Hl _]. rewrite Hd in Hl.
  change (2 ^ (53 - 1)) with 4503599627370496 in Hl. exact Hl.
Qed.

Lemma val_pos m e : -1074 <= e -> 0 < val m e.
Proof. intros He. unfold val. assert (0 < 2 ^ (e + 1074)) by (apply Z.pow_pos_nonneg; lia). nia. Qed.

(** Among canonical floats a smaller exponent means a smaller value. *)
Lemma val_lt_exp m1 e1 m2 e2 : cano m1 e1 -> cano m2 e2 -> e1 < e2 -> val m1 e1 < val m2 e2.
Proof.
  intros H1 H2 Hlt. unfold val.
  pose proof (cano_emin _ _ H1). pose proof (cano_lt_2p53 _ _ H1).
  pose proof (cano_normal _ _ H2 ltac:(lia)).
  replace (e2 + 1074) with ((e2 - e1 - 1) + 1 + (e1 + 1074)) by lia.
  rewrite (Z.pow_add_r 2 (e2 - e1 - 1 + 1)), (Z.pow_add_r 2 (e2 - e1 - 1)) by lia.
  rewrite Z.pow_1_r.
  assert (0 < 2 ^ (e1 + 1074)) by (apply Z.pow_pos_nonneg; lia).
  assert (0 < 2 ^ (e2 - e1 - 1)) by (apply Z.pow_pos_nonneg; lia).
  set (P := 2 ^ (e1 + 1074)) in *. set (T := 2 ^ (e2 - e1 - 1)) in *.
  apply Z.lt_le_trans with (9007199254740992 * P); [nia|].
  apply Z.le_trans with (Zpos m2 * (1 * 2 * P)); [nia|].
  apply Z.mul_le_mono_nonneg_l; [lia|]. nia.
Qed.

(** The lexicographic comparison used by [SFcompare] is the comparison of values. *)
Lemma val_compare m1 e1 m2 e2 : cano m1 e1 -> cano m2 e2 ->
  match e1 ?= e2 with
  | Lt => Lt
  | Gt => Gt
  | Eq => Pos.compare_cont Eq m1 m2
  end = (val m1 e1 ?= val m2 e2).
Proof.
  intros H1 H2. destruct (Z.compare_spec e1 e2) as [-> | Hlt | Hgt].
  - change (Pos.compare_cont Eq m1 m2) with (Zpos m1 ?= Zpos m2).
    unfold val. pose proof (cano_emin _ _ H2).
    assert (0 < 2 ^ (e2 + 1074)) by (apply Z.pow_pos_nonneg; lia).
    symmetry. destruct (Z.compare_spec (Zpos m1) (Zpos m2)) as [-> | | ].
    + apply Z.compare_refl.
    + apply Z.compare_lt_iff. apply Z.mul_lt_mono_pos_r; assumption.
    + apply Z.compare_gt_iff. apply Z.mul_lt_mono_pos_r; assumption.
  - symmetry. apply Z.compare_lt_iff. now apply val_lt_exp.
  - symmetry. apply Z.compare_gt_iff. now apply val_lt_exp.
Qed.

(** What rounding returns for canonical [(m, e)]: the float, or infinity on overflow. *)
Definition rounded (s : bool) (m : positive) (e : Z) : spec_float :=
  if e <=? 971 then S754_finite s m e else S754_infinity s.

Lemma binary_round_aux_cano s m e :
  cano m e -> binary_round_aux prec emax s (Zpos m) e loc_Exact = rounded s m e.
Proof.
  intros H. pose proof H as H'. rewrite cano_iff in H'.
  unfold binary_round_aux, shr_fexp. cbn [Zdigits2 shr_record_of_loc].
  rewrite fexp_eq.
  replace (Z.max (Zpos (digits2_pos m) + e - 53) (-1074) - e) with 0 by lia.
  cbn [shr shr_m shr_r shr_s loc_of_shr_record round_nearest_even Zdigits2].
  rewrite fexp_eq.
  replace (Z.max (Zpos (digits2_pos m) + e - 53) (-1074) - e) with 0 by lia.
  cbn [shr shr_m]. reflexivity.
Qed.

(** The second half of [binary_round_aux]: renormalise after the mantissa was rounded. *)
Definition round_finish (s : bool) (m : Z) (e : Z) : spec_float :=
  let '(mrs, e') := shr_fexp prec emax m e loc_Exact in
  match shr_m mrs with
  | Z0 => S754_zero s
  | Zpos m => if e' <=? emax - prec then S754_finite s m e' else S754_infinity s
  | _ => S754_nan
  end.

Lemma binary_round_aux_unfold s mx ex lx :
  binary_round_aux prec emax s mx ex lx =
  let '(mrs, e') := shr_fexp prec emax mx ex lx in
  round_finish s (round_nearest_even (shr_m mrs) (loc_of_shr_record mrs)) e'.
Proof. reflexivity. Qed.

Lemma round_finish_cano s m e : cano m e -> round_finish s (Zpos m) e = rounded s m e.
Proof.
  intros H. rewrite cano_iff in H.
  unfold round_finish, shr_fexp. cbn [Zdigits2 shr_record_of_loc]. rewrite fexp_eq.
  replace (Z.max (Zpos (digits2_pos m) + e - 53) (-1074) - e) with 0 by lia.
  reflexivity.
Qed.

Lemma round_finish_carry s e : -1074 <= e ->
  round_finish s 9007199254740992 e = rounded s 4503599627370496 (e + 1).
Proof.
  intros H. unfold round_finish, shr_fexp. rewrite fexp_eq.
  change (Zdigits2 9007199254740992) with 54.
  replace (Z.max (54 + e - 53) (-1074) - e) with 1 by lia.
  reflexivity.
Qed.

(** [rounds_to x y]: [y] is on the same side as [x] of every canonical value. *)
Definition rounds_to (x y : Z) : Prop :=
  (forall mb eb, cano mb eb -> x <= val mb eb -> y <= val mb eb) /\
  (forall mb eb, cano mb eb -> val mb eb <= x -> val mb eb <= y).

Lemma rounds_to_refl x : rounds_to x x.
Proof. split; auto. Qed.

Lemma round_nearest_even_cases q mrs :
  shr_m mrs = q ->
  let m1 := round_nearest_even (shr_m mrs) (loc_of_shr_record mrs) in
  m1 = q \/ (m1 = q + 1 /\ (shr_r mrs = true \/ shr_s mrs = true)).
Proof.
  intros <-. destruct mrs as [m [] []]; cbn; auto.
  destruct (Z.even m); auto.
Qed.

(** Dropping [n] low bits of a mantissa with at least 53 bits left, then
    rounding to [q] or [q+1] (up only if inexact), is monotone. *)
Lemma rounds_to_shift (M q m1 n P : Z) :
  0 < M -> 0 < n -> 0 <= P ->
  q = M / 2 ^ n -> 4503599627370496 <= q ->
  (m1 = q \/ (m1 = q + 1 /\ M mod 2 ^ n <> 0)) ->
  forall Y, Y = m1 * 2 ^ (P + n) ->
  rounds_to (M * 2 ^ P) Y.
Proof.
  intros HM Hn HP Hq Hq52 Hm1 Y ->.
  assert (HN : 0 < 2 ^ n) by (apply Z.pow_pos_nonneg; lia).
  assert (HPp : 0 < 2 ^ P) by (apply Z.pow_pos_nonneg; lia).
  rewrite Z.pow_add_r by lia.
  set (N := 2 ^ n) in *. set (Pp := 2 ^ P) in *.
  assert (HqN : q * N <= M < (q + 1) * N).
  { pose proof (Z.div_mod M N ltac:(lia)). pose proof (Z.mod_pos_bound M N HN). subst q. nia. }
  assert (Hm1q : q <= m1 <= q + 1) by lia.
  assert (Hcase : forall mb eb, cano mb eb ->
    (exists T, 0 < T /\ val mb eb = Zpos mb * T * N * Pp) \/
    val mb eb < 4503599627370496 * N * Pp).
  { intros mb eb Hc. unfold val. pose proof (cano_emin _ _ Hc). pose proof (cano_lt_2p53 _ _ Hc).
    destruct (Z_le_gt_dec (P + n) (eb + 1074)) as [Hge|Hlt].
    - left. exists (2 ^ (eb + 1074 - P - n)). split; [apply Z.pow_pos_nonneg; lia|].
      replace (eb + 1074) with ((eb + 1074 - P - n) + n + P) at 1 by lia.
      rewrite !Z.pow_add_r by lia. fold N Pp. ring.
    - right.
      assert (2 ^ (eb + 1074 + 1) <= 2 ^ (P + n)) by (apply Z.pow_le_mono_r; lia).
      rewrite (Z.pow_add_r 2 (eb + 1074) 1), (Z.pow_add_r 2 P n), Z.pow_1_r in H1 by lia.
      fold N Pp in H1.
      assert (0 < 2 ^ (eb + 1074)) by (apply Z.pow_pos_nonneg; lia).
      set (B := 2 ^ (eb + 1074)) in *.
      apply Z.lt_le_trans with (9007199254740992 * B); [apply Z.mul_lt_mono_pos_r; lia|].
      replace (9007199254740992 * B) with (4503599627370496 * (B * 2)) by ring.
      rewrite <- Z.mul_assoc. apply Z.mul_le_mono_nonneg_l; lia. }
  split; intros mb eb Hc Hle; destruct (Hcase mb eb Hc) as [(T & HT & HV) | Hlt].
  - rewrite HV in *.
    assert (H1 : M <= Zpos mb * T * N) by (apply (Z.mul_le_mono_pos_r _ _ Pp); assumption).
    assert (H2 : m1 <= Zpos mb * T).
    { assert (q * N <= Zpos mb * T * N) by lia.
      assert (q <= Zpos mb * T) by (apply (Z.mul_le_mono_pos_r _ _ N); assumption).
      destruct Hm1 as [-> | [-> Hne]]; [assumption|].
      assert (M <> Zpos mb * T * N) by (intros ->; apply Hne; apply Z_mod_mult).
      assert (q * N < Zpos mb * T * N) by lia.
      assert (q < Zpos mb * T) by (apply (Z.mul_lt_mono_pos_r N); assumption).
      lia. }
    replace (m1 * (Pp * N)) with (m1 * (N * Pp)) by ring.
    replace (Zpos mb * T * N * Pp) with (Zpos mb * T * (N * Pp)) by ring.
    apply Z.mul_le_mono_nonneg_r; [nia | assumption].
  - exfalso.
    assert (4503599627370496 * N * Pp <= M * Pp).
    { apply Z.mul_le_mono_nonneg_r; [lia|]. apply Z.le_trans with (q * N); [|lia].
      apply Z.mul_le_mono_nonneg_r; lia. }
    lia.
  - rewrite HV in *.
    assert (H1 : Zpos mb * T * N <= M) by (apply (Z.mul_le_mono_pos_r _ _ Pp); assumption).
    assert (H2 : Zpos mb * T * N < (q + 1) * N) by lia.
    assert (H3 : Zpos mb * T < q + 1) by (apply (Z.mul_lt_mono_pos_r N); assumption).
    replace (m1 * (Pp * N)) with (m1 * (N * Pp)) by ring.
    replace (Zpos mb * T * N * Pp) with (Zpos mb * T * (N * Pp)) by ring.
    apply Z.mul_le_mono_nonneg_r; [nia | lia].
  - apply Z.le_trans with (4503599627370496 * N * Pp); [lia|].
    replace (m1 * (Pp * N)) with (m1 * N * Pp) by ring.
    apply Z.mul_le_mono_nonneg_r; [lia|]. apply Z.mul_le_mono_nonneg_r; lia.
Qed.

(** [binary_round] returns a canonical float (or overflows) and is monotone. *)
Lemma binary_round_spec s m e : -1074 <= e ->
  exists m' e', binary_round prec emax s m e = rounded s m' e' /\ cano m' e' /\
                rounds_to (val m e) (val m' e').
Proof.
  intros He. unfold binary_round. rewrite fexp_eq.
  pose proof (digits2_pos_bounds m) as [Hl Hu].
  set (d := Zpos (digits2_pos m)) in *.
  destruct (Z_le_gt_dec d 53) as [Hd|Hd].
  - (* the mantissa fits: the result is exact *)
    unfold shl_align. destruct (Z.max (d + e - 53) (-1074) - e) as [|p|k] eqn:E; [|lia|].
    + assert (Hc : cano m e) by (apply cano_iff; fold d; lia).
      exists m, e. rewrite binary_round_aux_cano by assumption.
      split; [reflexivity|]. split; [assumption | apply rounds_to_refl].
    + set (e1 := Z.max (d + e - 53) (-1074)) in *.
      assert (Hc : cano (Pos.iter xO m k) e1).
      { apply cano_iff. rewrite digits2_pos_shift. fold d. lia. }
      exists (Pos.iter xO m k), e1. rewrite binary_round_aux_cano by assumption.
      split; [reflexivity|]. split; [assumption|].
      replace (val (Pos.iter xO m k) e1) with (val m e); [apply rounds_to_refl|].
      unfold val. rewrite iter_xO. replace (e + 1074) with (Zpos k + (e1 + 1074)) by lia.
      rewrite Z.pow_add_r by lia. ring.
  - (* the mantissa is too long: shift right and round *)
    unfold shl_align. destruct (Z.max (d + e - 53) (-1074) - e) as [|p|k] eqn:E; [lia| |lia].
    rewrite binary_round_aux_unfold. unfold shr_fexp. cbn [Zdigits2 shr_record_of_loc].
    rewrite fexp_eq. fold d. rewrite E. cbn [shr].
    pose proof (iter_pos_inv shr_1 (shr_inv (Zpos m))
                  (fun k x Hk => shr_1_inv (Zpos m) k x ltac:(lia) Hk) p 0
                  {| shr_m := Zpos m; shr_r := false; shr_s := false |} ltac:(lia)) as Hinv.
    destruct Hinv as [Hq Hex].
    { split; cbn [shr_m shr_r shr_s]; [now rewrite Z.pow_0_r, Z.div_1_r | auto]. }
    rewrite Z.add_0_l in Hq, Hex.
    set (mrs := SpecFloat.iter_pos shr_1 p _) in *.
    assert (Hp : Zpos p = d - 53) by lia.
    assert (HN : 0 < 2 ^ Zpos p) by (apply Z.pow_pos_nonneg; lia).
    assert (Hq52 : 4503599627370496 <= shr_m mrs < 9007199254740992).
    { rewrite Hq. split.
      - apply Z.div_le_lower_bound; [lia|].
        change 4503599627370496 with (2 ^ 52). rewrite <- Z.pow_add_r by lia.
        replace (Zpos p + 52) with (d - 1) by lia. exact Hl.
      - apply Z.div_lt_upper_bound; [lia|].
        change 9007199254740992 with (2 ^ 53). rewrite <- Z.pow_add_r by lia.
        replace (Zpos p + 53) with d by lia. exact Hu. }
    pose proof (round_nearest_even_cases (shr_m mrs) mrs eq_refl) as Hm1. cbv zeta in Hm1.
    set (m1 := round_nearest_even (shr_m mrs) (loc_of_shr_record mrs)) in *.
    assert (Hm1' : m1 = shr_m mrs \/ (m1 = shr_m mrs + 1 /\ Zpos m mod 2 ^ Zpos p <> 0)).
    { destruct Hm1 as [?|[? Hrs]]; [now left|right]. split; [assumption|].
      intros H0. destruct (Hex H0) as [Hr Hs]. rewrite Hr, Hs in Hrs. now destruct Hrs. }
    assert (Hbt : rounds_to (val m e) (m1 * 2 ^ (e + 1074 + Zpos p))).
    { unfold val. apply rounds_to_shift with (q := shr_m mrs) (m1 := m1) (n := Zpos p);
        try lia; try assumption. }
    destruct (Z_lt_le_dec m1 9007199254740992) as [Hlt|Hge].
    + destruct m1 as [|m1p|] eqn:Em1; try lia.
      assert (Hc : cano m1p (e + Zpos p)).
      { apply cano_iff. rewrite (digits2_pos_unique m1p 53); [lia|].
        change (2 ^ (53 - 1)) with 4503599627370496. change (2 ^ 53) with 9007199254740992. lia. }
      exists m1p, (e + Zpos p). rewrite round_finish_cano by assumption.
      split; [reflexivity|]. split; [assumption|].
      unfold val at 2. replace (e + Zpos p + 1074) with (e + 1074 + Zpos p) by lia. exact Hbt.
    + assert (Em1 : m1 = 9007199254740992) by lia. rewrite Em1 in *.
      exists 4503599627370496%positive, (e + Zpos p + 1).
      rewrite round_finish_carry by lia.
      split; [reflexivity|]. split.
      * apply cano_iff. change (Zpos (digits2_pos 4503599627370496)) with 53. lia.
      * unfold val at 2. replace (e + Zpos p + 1 + 1074) with (1 + (e + 1074 + Zpos p)) by lia.
        rewrite (Z.pow_add_r 2 1) by lia.
        replace (Zpos 4503599627370496 * (2 ^ 1 * 2 ^ (e + 1074 + Zpos p)))
          with (9007199254740992 * 2 ^ (e + 1074 + Zpos p)) by (rewrite Z.pow_1_r; ring).
        exact Hbt.
Qed.

(** A bound above every finite binary64 value; the key of infinity. *)
Definition huge : Z := 2 ^ 2098.

(** The integer a non-NaN float is ordered by. *)
Definition key (x : spec_float) : Z :=
  match x with
  | S754_zero _ => 0
  | S754_infinity s => if s then - huge else huge
  | S754_nan => 0
  | S754_finite s m e => if s then - val m e else val m e
  end.

Definition is_nan (x : spec_float) : bool :=
  match x with S754_nan => true | _ => false end.

Lemma huge_pos : 0 < huge.
Proof. unfold huge. apply Z.pow_pos_nonneg; lia. Qed.

Lemma bounded_iff m e : bounded prec emax m e = true <-> cano m e /\ e <= 971.
Proof.
  unfold bounded, cano. rewrite Bool.andb_true_iff. change (emax - prec) with 971.
  rewrite Z.leb_le. reflexivity.
Qed.

Lemma val_lt_huge m e : cano m e -> e <= 971 -> val m e < huge.
Proof.
  intros Hc He. unfold val, huge.
  pose proof (cano_lt_2p53 _ _ Hc). pose proof (cano_emin _ _ Hc).
  assert (0 < 2 ^ (e + 1074)) by (apply Z.pow_pos_nonneg; lia).
  apply Z.lt_le_trans with (2 ^ 53 * 2 ^ (e + 1074)).
  - change (2 ^ 53) with 9007199254740992. apply Z.mul_lt_mono_pos_r; lia.
  - rewrite <- Z.pow_add_r by lia. apply Z.pow_le_mono_r; lia.
Qed.

(** On valid non-NaN floats the IEEE comparison is the comparison of keys. *)
Lemma SFcompare_key x y :
  valid_binary x = true -> valid_binary y = true -> is_nan x = false -> is_nan y = false ->
  SFcompare x y = Some (key x ?= key y).
Proof.
  pose proof huge_pos as Hh.
  destruct x as [sx|sx| |sx mx ex], y as [sy|sy| |sy my ey]; cbn [valid_binary is_nan];
    intros Hx Hy Nx Ny; try discriminate; cbn [SFcompare key];
    try (apply bounded_iff in Hx as [Hcx Hex]; pose proof (val_lt_huge _ _ Hcx Hex);
         pose proof (val_pos mx ex (cano_emin _ _ Hcx)));
    try (apply bounded_iff in Hy as [Hcy Hey]; pose proof (val_lt_huge _ _ Hcy Hey);
         pose proof (val_pos my ey (cano_emin _ _ Hcy)));
    f_equal.
  all: try (destruct sx); try (destruct sy); symmetry;
    try reflexivity;
    try (apply Z.compare_lt_iff; lia); try (apply Z.compare_gt_iff; lia);
    try (apply Z.compare_eq_iff; lia).
  - rewrite Z.compare_opp. rewrite <- (val_compare my ey mx ex) by assumption.
    rewrite (Z.compare_antisym ey ex), (Pos.compare_cont_antisym mx my Eq).
    destruct (ey ?= ex); reflexivity.
  - now rewrite <- val_compare.
Qed.

Lemma shl_align_val m e ez : ez <= e ->
  Zpos (fst (shl_align m e ez)) = Zpos m * 2 ^ (e - ez).
Proof.
  intros H. unfold shl_align. destruct (ez - e) as [|p|k] eqn:E; cbn [fst].
  - replace (e - ez) with 0 by lia. cbn. lia.
  - lia.
  - rewrite iter_xO. f_equal. f_equal. lia.
Qed.

Lemma key_rounded_above s m e mb eb :
  cano m e -> cano mb eb -> eb <= 971 -> val m e <= val mb eb ->
  rounded s m e = S754_finite s m e.
Proof.
  intros Hc Hb Heb Hle. unfold rounded. destruct (Z.leb_spec e 971) as [|Hgt]; [reflexivity|].
  pose proof (val_lt_exp mb eb m e Hb Hc ltac:(lia)). lia.
Qed.

Lemma key_rounded_pos m e mb eb :
  cano mb eb -> eb <= 971 -> val mb eb <= val m e -> val mb eb <= key (rounded false m e).
Proof.
  intros Hb Heb Hle. unfold rounded. destruct (e <=? 971); cbn [key]; [assumption|].
  pose proof (val_lt_huge _ _ Hb Heb). lia.
Qed.

Lemma key_rounded_neg m e mb eb :
  cano mb eb -> eb <= 971 -> val mb eb <= val m e -> key (rounded true m e) <= - val mb eb.
Proof.
  intros Hb Heb Hle. unfold rounded. destruct (e <=? 971); cbn [key]; [lia|].
  pose proof (val_lt_huge _ _ Hb Heb). lia.
Qed.

Lemma is_nan_rounded s m e : is_nan (rounded s m e) = false.
Proof. unfold rounded. now destruct (e <=? 971). Qed.

(** Rounding the exact sum of two finite floats: adding a non-positive
    operand cannot increase the first, adding a non-negative one cannot
    decrease it. *)
Lemma normalize_sum sb mb eb sd md ed (M : Z) :
  cano mb eb -> eb <= 971 -> cano md ed -> ed <= 971 ->
  let ez := Z.min eb ed in
  M * 2 ^ (ez + 1074) = key (S754_finite sb mb eb) + key (S754_finite sd md ed) ->
  let r := binary_normalize prec emax M ez false in
  is_nan r = false /\
  (key (S754_finite sd md ed) <= 0 -> key r <= key (S754_finite sb mb eb)) /\
  (0 <= key (S754_finite sd md ed) -> key (S754_finite sb mb eb) <= key r).
Proof.
  intros Hb Heb Hd Hed ez HM r.
  pose proof (cano_emin _ _ Hb). pose proof (cano_emin _ _ Hd).
  assert (Hez : -1074 <= ez) by (unfold ez; lia).
  assert (HP : 0 < 2 ^ (ez + 1074)) by (apply Z.pow_pos_nonneg; lia).
  pose proof (val_pos mb eb ltac:(lia)) as Hvb. pose proof (val_pos md ed ltac:(lia)) as Hvd.
  unfold r, binary_normalize. destruct M as [|m|m].
  - split; [reflexivity|]. destruct sb, sd; cbn [key] in *; lia.
  - destruct (binary_round_spec false m ez Hez) as (m' & e' & -> & Hc & Hup & Hdown).
    rewrite is_nan_rounded. split; [reflexivity|].
    assert (Hv : val m ez = key (S754_finite sb mb eb) + key (S754_finite sd md ed))
      by (unfold val; lia).
    cbn [key] in *. split; intros Hsd.
    + destruct sb; [lia|].
      assert (Hle : val m' e' <= val mb eb) by (apply Hup; [assumption | lia]).
      rewrite (key_rounded_above false m' e' mb eb) by assumption. cbn [key]. exact Hle.
    + destruct sb.
      * unfold rounded. pose proof huge_pos. pose proof (val_pos m' e' (cano_emin _ _ Hc)).
        destruct (e' <=? 971); cbn [key]; lia.
      * apply key_rounded_pos; [assumption | assumption |]. apply Hdown; [assumption | lia].
  - destruct (binary_round_spec true m ez Hez) as (m' & e' & -> & Hc & Hup & Hdown).
    rewrite is_nan_rounded. split; [reflexivity|].
    assert (Hv : val m ez = - (key (S754_finite sb mb eb) + key (S754_finite sd md ed)))
      by (unfold val; lia).
    cbn [key] in *. split; intros Hsd.
    + destruct sb.
      * apply key_rounded_neg; [assumption | assumption |]. apply Hdown; [assumption | lia].
      * unfold rounded. pose proof huge_pos. pose proof (val_pos m' e' (cano_emin _ _ Hc)).
        destruct (e' <=? 971); cbn [key]; lia.
    + destruct sb; [|lia].
      assert (Hle : val m' e' <= val mb eb) by (apply Hup; [assumption | lia]).
      rewrite (key_rounded_above true m' e' mb eb) by assumption. cbn [key]. lia.
Qed.

Lemma aligned_key s m e ez : -1074 <= ez -> ez <= e ->
  cond_Zopp s (Zpos (fst (shl_align m e ez))) * 2 ^ (ez + 1074) = key (S754_finite s m e).
Proof.
  intros H1 H2. rewrite shl_align_val by assumption. cbn [key]. unfold val.
  replace (e + 1074) with ((e - ez) + (ez + 1074)) by lia.
  rewrite (Z.pow_add_r 2 (e - ez) (ez + 1074)) by lia.
  destruct s; cbn [cond_Zopp]; ring.
Qed.

(** Subtracting a non-negative float never gives a larger one. *)
Lemma SFsub_key b d :
  valid_binary b = true -> valid_binary d = true -> is_nan b = false -> is_nan d = false ->
  0 <= key d -> is_nan (SFsub prec emax b d) = false ->
  key (SFsub prec emax b d) <= key b.
Proof.
  pose proof huge_pos as Hh.
  destruct b as [sb|sb| |sb mb eb], d as [sd|sd| |sd md ed]; cbn [valid_binary is_nan];
    intros Hb Hd Nb Nd Hk; try discriminate;
    try (apply bounded_iff in Hb as [Hcb Heb]; pose proof (val_lt_huge _ _ Hcb Heb);
         pose proof (val_pos mb eb (cano_emin _ _ Hcb)));
    try (apply bounded_iff in Hd as [Hcd Hed]; pose proof (val_lt_huge _ _ Hcd Hed);
         pose proof (val_pos md ed (cano_emin _ _ Hcd)));
    cbn [SFsub].
  all: try (destruct sb, sd; cbn [key is_nan negb] in *; intros; try discriminate; lia).
  all: try (destruct sd; cbn [key is_nan negb] in *; intros; try discriminate; lia).
  all: try (destruct sb; cbn [key is_nan negb] in *; intros; try discriminate; lia).
  intros _.
  pose proof (cano_emin _ _ Hcb). pose proof (cano_emin _ _ Hcd).
  apply (normalize_sum sb mb eb (negb sd) md ed); try assumption.
  - rewrite Z.mul_sub_distr_r, !aligned_key by lia. cbn [key]. destruct sd; cbn [negb]; lia.
  - destruct sd; cbn [key negb] in *; lia.
Qed.

(** Adding a non-negative float never gives a smaller one. *)
Lemma SFadd_key b d :
  valid_binary b = true -> valid_binary d = true -> is_nan b = false -> is_nan d = false ->
  0 <= key d -> is_nan (SFadd prec emax b d) = false ->
  key b <= key (SFadd prec emax b d).
Proof.
  pose proof huge_pos as Hh.
  destruct b as [sb|sb| |sb mb eb], d as [sd|sd| |sd md ed]; cbn [valid_binary is_nan];
    intros Hb Hd Nb Nd Hk; try discriminate;
    try (apply bounded_iff in Hb as [Hcb Heb]; pose proof (val_lt_huge _ _ Hcb Heb);
         pose proof (val_pos mb eb (cano_emin _ _ Hcb)));
    try (apply bounded_iff in Hd as [Hcd Hed]; pose proof (val_lt_huge _ _ Hcd Hed);
         pose proof (val_pos md ed (cano_emin _ _ Hcd)));
    cbn [SFadd].
  all: try (destruct sb, sd; cbn [key is_nan negb] in *; intros; try discriminate; lia).
  all: try (destruct sd; cbn [key is_nan negb] in *; intros; try discriminate; lia).
  all: try (destruct sb; cbn [key is_nan negb] in *; intros; try discriminate; lia).
  intros _.
  pose proof (cano_emin _ _ Hcb). pose proof (cano_emin _ _ Hcd).
  apply (normalize_sum sb mb eb sd md ed); try assumption.
  rewrite Z.mul_add_distr_r, !aligned_key by lia. reflexivity.
Qed.

(** The key of a primitive float, [None] for NaN. *)
Definition fkey (x : float) : option Z :=
  let sx := Prim2SF x in if is_nan sx then None else Some (key sx).

Lemma ltb_fkey x y :
  PrimFloat.ltb x y =
  match fkey x, fkey y with Some a, Some b => a <? b | _, _ => false end.
Proof.
  rewrite ltb_spec. unfold SFltb, fkey. cbv zeta.
  destruct (is_nan (Prim2SF x)) eqn:Nx.
  - destruct (Prim2SF x); try discriminate. reflexivity.
  - destruct (is_nan (Prim2SF y)) eqn:Ny.
    + destruct (Prim2SF y); try discriminate. destruct (Prim2SF x); reflexivity.
    + rewrite SFcompare_key by (auto using Prim2SF_valid).
      unfold Z.ltb. destruct (_ ?= _); reflexivity.
Qed.

Lemma leb_fkey x y :
  PrimFloat.leb x y =
  match fkey x, fkey y with Some a, Some b => a <=? b | _, _ => false end.
Proof.
  rewrite leb_spec. unfold SFleb, fkey. cbv zeta.
  destruct (is_nan (Prim2SF x)) eqn:Nx.
  - destruct (Prim2SF x); try discriminate. reflexivity.
  - destruct (is_nan (Prim2SF y)) eqn:Ny.
    + destruct (Prim2SF y); try discriminate. destruct (Prim2SF x); reflexivity.
    + rewrite SFcompare_key by (auto using Prim2SF_valid).
      unfold Z.leb. destruct (_ ?= _); reflexivity.
Qed.

Lemma fkey_infinity : fkey infinity = Some huge.
Proof. unfold fkey. change (Prim2SF infinity) with (S754_infinity false). reflexivity. Qed.

Lemma fkey_neg_infinity : fkey neg_infinity = Some (- huge).
Proof. unfold fkey. change (Prim2SF neg_infinity) with (S754_infinity true). reflexivity. Qed.

Lemma fkey_zero : fkey 0%float = Some 0.
Proof. unfold fkey. change (Prim2SF 0%float) with (S754_zero false). reflexivity. Qed.

Lemma fkey_bounds x a : fkey x = Some a -> - huge <= a <= huge.
Proof.
  unfold fkey. cbv zeta. pose proof (Prim2SF_valid x) as Hv. pose proof huge_pos.
  destruct (Prim2SF x) as [s|s| |s m e]; cbn [is_nan key valid_binary] in *;
    intros [= <-]; try (destruct s; lia).
  apply bounded_iff in Hv as [Hc He].
  pose proof (val_lt_huge _ _ Hc He). pose proof (val_pos m e (cano_emin _ _ Hc)).
  destruct s; lia.
Qed.

Lemma fkey_sub b d kb kd k :
  fkey b = Some kb -> fkey d = Some kd -> 0 <= kd -> fkey (b - d)%float = Some k -> k <= kb.
Proof.
  unfold fkey. cbv zeta. rewrite sub_spec. unfold SF64sub.
  destruct (is_nan (Prim2SF b)) eqn:Nb; [discriminate|].
  destruct (is_nan (Prim2SF d)) eqn:Nd; [discriminate|].
  destruct (is_nan (SFsub prec emax (Prim2SF b) (Prim2SF d))) eqn:Nr; [discriminate|].
  intros [= <-] [= <-] Hd [= <-].
  apply SFsub_key; auto using Prim2SF_valid.
Qed.

Lemma fkey_add b d kb kd k :
  fkey b = Some kb -> fkey d = Some kd -> 0 <= kd -> fkey (b + d)%float = Some k -> kb <= k.
Proof.
  unfold fkey. cbv zeta. rewrite add_spec. unfold SF64add.
  destruct (is_nan (Prim2SF b)) eqn:Nb; [discriminate|].
  destruct (is_nan (Prim2SF d)) eqn:Nd; [discriminate|].
  destruct (is_nan (SFadd prec emax (Prim2SF b) (Prim2SF d))) eqn:Nr; [discriminate|].
  intros [= <-] [= <-] Hd [= <-].
  apply SFadd_key; auto using Prim2SF_valid.
Qed.

(** A NaN operand of [-] or [+] gives NaN. *)
Lemma fkey_sub_defined b d k :
  fkey (b - d)%float = Some k -> is_Some (fkey b) /\ is_Some (fkey d).
Proof.
  unfold fkey. cbv zeta. rewrite sub_spec. unfold SF64sub.
  destruct (Prim2SF b) as [?|?| |? ? ?], (Prim2SF d) as [?|?| |? ? ?];
    cbn [SFsub is_nan]; intros H; try discriminate; split; eauto.
Qed.

Lemma fkey_add_defined b d k :
  fkey (b + d)%float = Some k -> is_Some (fkey b) /\ is_Some (fkey d).
Proof.
  unfold fkey. cbv zeta. rewrite add_spec. unfold SF64add.
  destruct (Prim2SF b) as [?|?| |? ? ?], (Prim2SF d) as [?|?| |? ? ?];
    cbn [SFadd is_nan]; intros H; try discriminate; split; eauto.
Qed.

End Binary64.

(** * Part 2: Python values

    Comparison and arithmetic on [float] as the callbacks use them, with the
    order facts the proofs need. *)

Module Py.

(** [float("inf")] and [float("-inf")]. *)
Definition inf : float := infinity.
Definition neg_inf : float := neg_infinity.

(** [x < y], [x > y] and [x <= y] on floats; each is [False] when an operand is NaN. *)
Definition lt (x y : float) : bool := PrimFloat.ltb x y.
Definition gt (x y : float) : bool := PrimFloat.ltb y x.
Definition le (x y : float) : bool := PrimFloat.leb x y.

(** Truth value of a [str]: the empty string is falsy. *)
Definition truthy (s : string) : bool :=
  match s with EmptyString => false | String _ _ => true end.

(** [str(n)] for an [int]. *)
Definition str_int (n : Z) : string := pretty n.

Section Order.
Import Binary64.
Local Open Scope Z_scope.

Lemma lt_spec x y :
  lt x y = true <-> exists a b, fkey x = Some a /\ fkey y = Some b /\ a < b.
Proof.
  unfold lt. rewrite ltb_fkey. split.
  - destruct (fkey x) as [a|], (fkey y) as [b|]; try discriminate.
    intros H%Z.ltb_lt. eauto.
  - intros (a & b & -> & -> & H). now apply Z.ltb_lt.
Qed.

Lemma le_spec x y :
  le x y = true <-> exists a b, fkey x = Some a /\ fkey y = Some b /\ a <= b.
Proof.
  unfold le. rewrite leb_fkey. split.
  - destruct (fkey x) as [a|], (fkey y) as [b|]; try discriminate.
    intros H%Z.leb_le. eauto.
  - intros (a & b & -> & -> & H). now apply Z.leb_le.
Qed.

Lemma gt_spec x y :
  gt x y = true <-> exists a b, fkey x = Some a /\ fkey y = Some b /\ b < a.
Proof.
  unfold gt. fold (lt y x). rewrite lt_spec.
  split; intros (a & b & ? & ? & ?); exists b, a; auto.
Qed.

Lemma not_true_false (b : bool) : (b = true -> False) -> b = false.
Proof. destruct b; [intros H; now destruct H | reflexivity]. Qed.

Lemma lt_irrefl x : lt x x = false.
Proof. apply not_true_false. intros (a & b & Ha & Hb & H)%lt_spec. simplify_eq. lia. Qed.

Lemma lt_neq x y : lt x y = true -> x <> y.
Proof. intros H ->. rewrite lt_irrefl in H. discriminate. Qed.

Lemma lt_le x y : lt x y = true -> le x y = true.
Proof. intros (a & b & Ha & Hb & H)%lt_spec. apply le_spec. exists a, b. repeat split; auto; lia. Qed.

Lemma lt_trans x y z : lt x y = true -> lt y z = true -> lt x z = true.
Proof.
  intros (a & b & Ha & Hb & H)%lt_spec (b' & c & Hb' & Hc & H')%lt_spec. simplify_eq.
  apply lt_spec. exists a, c. repeat split; auto; lia.
Qed.

Lemma le_trans x y z : le x y = true -> le y z = true -> le x z = true.
Proof.
  intros (a & b & Ha & Hb & H)%le_spec (b' & c & Hb' & Hc & H')%le_spec. simplify_eq.
  apply le_spec. exists a, c. repeat split; auto; lia.
Qed.

Lemma lt_le_trans x y z : lt x y = true -> le y z = true -> lt x z = true.
Proof.
  intros (a & b & Ha & Hb & H)%lt_spec (b' & c & Hb' & Hc & H')%le_spec. simplify_eq.
  apply lt_spec. exists a, c. repeat split; auto; lia.
Qed.

(** Inside the closed band [lo <= v], [v] is not below [lo]. *)
Lemma le_not_lt x y : le x y = true -> lt y x = false.
Proof.
  intros (a & b & Ha & Hb & H)%le_spec. apply not_true_false.
  intros (b' & a' & Hb' & Ha' & H')%lt_spec. simplify_eq. lia.
Qed.

Lemma lt_asym x y : lt x y = true -> lt y x = false.
Proof. intros H. apply le_not_lt. now apply lt_le. Qed.

(** A value that compares below something is not NaN. *)
Lemma lt_le_refl_l x y : lt x y = true -> le x x = true.
Proof. intros (a & b & Ha & Hb & H)%lt_spec. apply le_spec. exists a, a. auto with lia. Qed.

Lemma le_inf_refl : le inf inf = true.
Proof. apply le_spec. exists huge, huge. unfold inf. rewrite fkey_infinity. auto with lia. Qed.

(** Nothing is above positive infinity, nothing below negative infinity. *)
Lemma lt_inf_l x : lt inf x = false.
Proof.
  apply not_true_false. intros (a & b & Ha & Hb & H)%lt_spec.
  unfold inf in Ha. rewrite fkey_infinity in Ha. apply fkey_bounds in Hb. simplify_eq. lia.
Qed.

Lemma gt_inf_r x : gt x inf = false.
Proof. apply lt_inf_l. Qed.

Lemma lt_neg_inf_r x : lt x neg_inf = false.
Proof.
  apply not_true_false. intros (a & b & Ha & Hb & H)%lt_spec.
  unfold neg_inf in Hb. rewrite fkey_neg_infinity in Hb. apply fkey_bounds in Ha. simplify_eq. lia.
Qed.

(** With [d >= 0], being below [b - d] implies being below [b]. *)
Lemma lt_sub_nonneg v b d :
  le 0 d = true -> lt v (b - d) = true -> lt v b = true.
Proof.
  intros (z & kd & Hz & Hd & Hle)%le_spec (a & k & Ha & Hk & Hlt)%lt_spec.
  rewrite fkey_zero in Hz. simplify_eq.
  destruct (fkey_sub_defined _ _ _ Hk) as [[kb Hb] _].
  pose proof (fkey_sub _ _ _ _ _ Hb Hd Hle Hk).
  apply lt_spec. exists a, kb. auto with lia.
Qed.

(** With [d >= 0], being above [b + d] implies being above [b]. *)
Lemma gt_add_nonneg v b d :
  le 0 d = true -> gt v (b + d) = true -> gt v b = true.
Proof.
  intros (z & kd & Hz & Hd & Hle)%le_spec (a & k & Ha & Hk & Hlt)%gt_spec.
  rewrite fkey_zero in Hz. simplify_eq.
  destruct (fkey_add_defined _ _ _ Hk) as [[kb Hb] _].
  pose proof (fkey_add _ _ _ _ _ Hb Hd Hle Hk).
  apply gt_spec. exists a, kb. auto with lia.
Qed.

(** With [d >= 0] the two tests of [on_epoch_end] exclude each other. *)
Lemma gt_add_not_lt_sub v b d :
  le 0 d = true -> gt v (b + d) = true -> lt v (b - d) = false.
Proof.
  intros Hd Hgt. apply not_true_false. intros Hlt.
  pose proof (gt_add_nonneg _ _ _ Hd Hgt) as H1.
  pose proof (lt_sub_nonneg _ _ _ Hd Hlt) as H2.
  unfold gt in H1. fold (lt b v) in H1. rewrite (lt_asym _ _ H1) in H2. discriminate.
Qed.

End Order.
End Py.

(** * Part 3: the library functions the callbacks call *)

(** ** [difflib.get_close_matches]

    [SequenceMatcher.ratio()] is [2.0 * M / T] where [T] is the total length
    of both strings and [M] the number of matched characters found by the
    matching-block search.  That search belongs to the Python standard
    library, not to this repository: it is a parameter of the model.  The
    two cheap upper bounds [real_quick_ratio] and [quick_ratio] are modelled
    in full.  Scores are kept as exact rationals. *)

Module difflib.

Class SequenceMatcher := matching_size : string -> string -> nat.

Definition calculate_ratio (matches length : nat) : Q :=
  match length with
  | O => 1%Q
  | S _ => Qmake (Z.of_nat (2 * matches)) (Pos.of_nat length)
  end.

Definition real_quick_ratio (a b : string) : Q :=
  let la := String.length a in
  let lb := String.length b in
  calculate_ratio (Nat.min la lb) (la + lb).

(** Remove one occurrence of [c], if there is one. *)
Fixpoint take_one (c : ascii) (avail : list ascii) : option (list ascii) :=
  match avail with
  | [] => None
  | x :: rest =>
      if Ascii.eqb c x then Some rest
      else option_map (cons x) (take_one c rest)
  end.

(** How many characters of [a] can be paired with a distinct equal character of [b]. *)
Fixpoint quick_matches (a : list ascii) (avail : list ascii) : nat :=
  match a with
  | [] => O
  | elt :: a' =>
      match take_one elt avail with
      | Some avail' => S (quick_matches a' avail')
      | None => quick_matches a' avail
      end
  end.

Definition quick_ratio (a b : string) : Q :=
  calculate_ratio
    (quick_matches (list_ascii_of_string a) (list_ascii_of_string b))
    (String.length a + String.length b).

Definition ratio `{SequenceMatcher} (a b : string) : Q :=
  calculate_ratio (matching_size a b) (String.length a + String.length b).

(** Tuples [(score, x)] compare lexicographically. *)
Definition tuple_compare (p q : Q * string) : comparison :=
  match Qcompare (fst p) (fst q) with
  | Eq => String.compare (snd p) (snd q)
  | c => c
  end.

Definition tuple_ge (p q : Q * string) : Prop := tuple_compare p q <> Lt.

#[global] Instance tuple_ge_dec p q : Decision (tuple_ge p q).
Proof. unfold tuple_ge. destruct (tuple_compare p q); [left | right | left]; congruence. Defined.

(** [heapq.nlargest(n, result)]: the [n] largest, largest first. *)
Definition nlargest (n : nat) (result : list (Q * string)) : list (Q * string) :=
  take n (merge_sort tuple_ge result).

(** [get_close_matches(word, possibilities, n, cutoff)].  Its two argument
    checks ([n > 0], [0 <= cutoff <= 1]) hold for the constants the callback
    passes and are not modelled. *)
Definition get_close_matches `{SequenceMatcher}
    (word : string) (possibilities : list string) (n : nat) (cutoff : Q) : list string :=
  let result :=
    omap (fun x =>
            if Qle_bool cutoff (real_quick_ratio x word)
               && Qle_bool cutoff (quick_ratio x word)
               && Qle_bool cutoff (ratio x word)
            then Some (ratio x word, x) else None)
         possibilities in
  (nlargest n result).*2.

(** A matcher to run examples with: the longest common substring, then the
    same search to its left and to its right (the matching-block search
    without its junk heuristic, which needs 200 characters to start). *)
Fixpoint common_prefix (a b : list ascii) : nat :=
  match a, b with
  | x :: a', y :: b' => if Ascii.eqb x y then S (common_prefix a' b') else O
  | _, _ => O
  end.

(** Best [(j, k)] for a fixed start in [a]: the earliest [j] with the longest match. *)
Fixpoint longest_at (a b : list ascii) (j : nat) (best : nat * nat) : nat * nat :=
  match b with
  | [] => best
  | _ :: b' =>
      let k := common_prefix a b in
      longest_at a b' (S j) (if (snd best <? k)%nat then (j, k) else best)
  end.

(** Best [(i, j, k)]: the longest match, earliest in [a], then earliest in [b]. *)
Fixpoint find_longest_match (a b : list ascii) (i : nat) (best : nat * nat * nat)
    : nat * nat * nat :=
  match a with
  | [] => best
  | _ :: a' =>
      let '(j, k) := longest_at a b O (O, O) in
      find_longest_match a' b (S i)
        (if (snd best <? k)%nat then (i, j, k) else best)
  end.

Fixpoint matching_blocks_size (fuel : nat) (a b : list ascii) : nat :=
  match fuel with
  | O => O
  | S fuel' =>
      let '(i, j, k) := find_longest_match a b O (O, O, O) in
      match k with
      | O => O
      | S _ =>
          (matching_blocks_size fuel' (take i a) (take j b) + k
           + matching_blocks_size fuel' (drop (i + k) a) (drop (j + k) b))%nat
      end
  end.

Definition longest_blocks : SequenceMatcher :=
  fun a b =>
    let la := list_ascii_of_string a in
    matching_blocks_size (S (length la)) la (list_ascii_of_string b).

End difflib.

(** ** [os.path.join] (POSIX), for two components *)

Module os_path.

Definition startswith_sep (b : string) : bool :=
  match b with
  | String c _ => Ascii.eqb c "/"
  | EmptyString => false
  end.

Fixpoint endswith_sep (a : string) : bool :=
  match a with
  | EmptyString => false
  | String c EmptyString => Ascii.eqb c "/"
  | String _ rest => endswith_sep rest
  end.

Definition join (a b : string) : string :=
  if startswith_sep b then b
  else if negb (Py.truthy a) || endswith_sep a then a +:+ b
  else a +:+ "/" +:+ b.

End os_path.

(** ** [torch]: models, their state and [torch.save]

    The weights are opaque to the callbacks: a state dict is a list of named
    tensors, a tensor a list of floats. *)

Module torch.

Definition Tensor : Type := list float.
Definition StateDict : Type := list (string * Tensor).

Record Module_ := { state_dict : StateDict }.

(** [nn.Sequential()]: a model without parameters. *)
Definition Sequential : Module_ := {| state_dict := [] |}.

(** One call [torch.save(obj, path)]. *)
Definition SaveCall : Type := (StateDict * string)%type.

(** The files on disk, by path; [torch.save] replaces the file at its path. *)
Definition save (fs : gmap string StateDict) (call : SaveCall) : gmap string StateDict :=
  <[call.2 := call.1]> fs.

Definition save_all (fs : gmap string StateDict) (calls : list SaveCall)
    : gmap string StateDict :=
  foldl save fs calls.

End torch.

(** * Part 4: the callbacks *)

(** The metrics of one epoch: [logs], a [dict] from metric name to value. *)
Abbreviation Logs := (gmap string float).

(** The keyword arguments the training loop passes; a missing keyword is [None]. *)
Record Kwargs := {
  kw_logs : option Logs;
  kw_epoch : option Z;
  kw_model : option torch.Module_;
}.

(** [logs.get(key, float("inf"))]. *)
Definition logs_get (logs : Logs) (key : string) : float :=
  default Py.inf (logs !! key).

(** ** class EarlyStopping *)

Module EarlyStopping.
Local Open Scope Z_scope.

Record t := {
  patience : Z;
  delta : float;
  counter : Z;
  best_loss : float;
  best_epoch : Z;
  metric_name : string;
}.

Definition init (patience : Z) (delta : float) : t := {|
  patience := patience;
  delta := delta;
  counter := 0;
  best_loss := Py.inf;
  best_epoch := 0;
  metric_name := "val_loss";
|}.

Definition on_epoch_begin (self : t) (kwargs : Kwargs) : bool * t :=
  (false, self).

Definition set_improved (self : t) (val_loss : float) : t := {|
  patience := patience self;
  delta := delta self;
  counter := 0;
  best_loss := val_loss;
  best_epoch := best_epoch self;
  metric_name := metric_name self;
|}.

Definition set_counter (self : t) (c : Z) : t := {|
  patience := patience self;
  delta := delta self;
  counter := c;
  best_loss := best_loss self;
  best_epoch := best_epoch self;
  metric_name := metric_name self;
|}.

Definition on_epoch_end (self : t) (kwargs : Kwargs) : bool * t :=
  let logs := default ∅ (kw_logs kwargs) in
  let val_loss := logs_get logs (metric_name self) in
  if Py.lt val_loss (best_loss self - delta self) then
    (false, set_improved self val_loss)
  else if Py.gt val_loss (best_loss self + delta self) then
    let self := set_counter self (counter self + 1) in
    if bool_decide (patience self <= counter self) then (true, self)
    else (false, self)
  else (false, self).

(** Successive [on_epoch_end] calls on one instance: what each call returned
    and the state it left. *)
Fixpoint epochs (self : t) (calls : list Kwargs) : list (bool * t) :=
  match calls with
  | [] => []
  | kwargs :: rest =>
      let r := on_epoch_end self kwargs in
      r :: epochs r.2 rest
  end.

(** The state after a sequence of calls. *)
Definition after (self : t) (calls : list Kwargs) : t :=
  foldl (fun self kwargs => (on_epoch_end self kwargs).2) self calls.

End EarlyStopping.

(** ** class ModelCheckpoint *)

Module ModelCheckpoint.
Import difflib.
Local Open Scope Z_scope.

Record t := {
  slurm_job_id : string;
  save_path : string;
  monitor : string;
  mode : string;
  save_best_only : bool;
  best_metric : float;
  best_epoch : Z;
}.

Definition init (slurm_job_id save_path monitor mode : string) (save_best_only : bool) : t := {|
  slurm_job_id := slurm_job_id;
  save_path := save_path;
  monitor := monitor;
  mode := mode;
  save_best_only := save_best_only;
  best_metric := if bool_decide (mode = "min") then Py.inf else Py.neg_inf;
  best_epoch := 0;
|}.

(** What a call can raise.  [ValueError] carries the two values its message
    interpolates: the monitored key and [list(logs.keys())]. *)
Inductive exn :=
| IndexError
| ValueError (monitor : string) (available : list string).

Inductive outcome :=
| Return (stop : bool)
| Raise (e : exn).

(** A finished call: how it ended, the instance afterwards, and the
    [torch.save] calls it made, in order. *)
Record result := {
  out : outcome;
  self_after : t;
  saved : list torch.SaveCall;
}.

Definition on_epoch_begin (self : t) (kwargs : Kwargs) : bool * t :=
  (false, self).

Definition set_monitor (self : t) (key : string) : t := {|
  slurm_job_id := slurm_job_id self;
  save_path := save_path self;
  monitor := key;
  mode := mode self;
  save_best_only := save_best_only self;
  best_metric := best_metric self;
  best_epoch := best_epoch self;
|}.

Definition set_best (self : t) (metric : float) (epoch : Z) : t := {|
  slurm_job_id := slurm_job_id self;
  save_path := save_path self;
  monitor := monitor self;
  mode := mode self;
  save_best_only := save_best_only self;
  best_metric := metric;
  best_epoch := epoch;
|}.

(** [logs.keys()]. *)
Definition keys (logs : Logs) : list string := (map_to_list logs).*1.

(** The block under [if epoch == 1:]: when the monitored key is missing,
    take the closest key of [logs] instead. *)
Definition find_monitor `{SequenceMatcher} (self : t) (logs : Logs) (epoch : Z) : exn + t :=
  if bool_decide (epoch = 1) then
    match logs !! monitor self with
    | Some _ => inr self
    | None =>
        match get_close_matches (monitor self) (keys logs) 1%nat 0%Q with
        | [] => inl IndexError
        | close_matches :: _ =>
            if Py.truthy close_matches then inr (set_monitor self close_matches)
            else inl (ValueError (monitor self) (keys logs))
        end
    end
  else inr self.

(** The two file names. *)
Definition best_file (self : t) : string :=
  os_path.join (save_path self) (slurm_job_id self +:+ ".pth").

Definition epoch_file (self : t) (epoch : Z) : string :=
  os_path.join (save_path self)
    (slurm_job_id self +:+ "_epoch_" +:+ Py.str_int epoch +:+ ".pth").

Definition on_epoch_end `{SequenceMatcher} (self : t) (kwargs : Kwargs) : result :=
  let logs := default ∅ (kw_logs kwargs) in
  let epoch := default 0 (kw_epoch kwargs) in
  let model := default torch.Sequential (kw_model kwargs) in
  match find_monitor self logs epoch with
  | inl e => {| out := Raise e; self_after := self; saved := [] |}
  | inr self =>
      let current_metric := logs_get logs (monitor self) in
      if save_best_only self then
        if (bool_decide (mode self = "min") && Py.lt current_metric (best_metric self))
           || (bool_decide (mode self = "max") && Py.gt current_metric (best_metric self))
        then
          {| out := Return false;
             self_after := set_best self current_metric epoch;
             saved := [(torch.state_dict model, best_file self)] |}
        else {| out := Return false; self_after := self; saved := [] |}
      else
        {| out := Return false;
           self_after := self;
           saved := [(torch.state_dict model, epoch_file self epoch)] |}
  end.

(** Successive [on_epoch_end] calls on one instance, up to and including the
    first that raises (an exception ends the training loop). *)
Fixpoint epochs `{SequenceMatcher} (self : t) (calls : list Kwargs) : list result :=
  match calls with
  | [] => []
  | kwargs :: rest =>
      let r := on_epoch_end self kwargs in
      match out r with
      | Return _ => r :: epochs (self_after r) rest
      | Raise _ => [r]
      end
  end.

(** Every [torch.save] call of a sequence of calls, in order. *)
Definition saved_by `{SequenceMatcher} (self : t) (calls : list Kwargs) : list torch.SaveCall :=
  concat (saved <$> epochs self calls).

End ModelCheckpoint.

(** * Part 5: facts about the library functions *)

Section DifflibFacts.
Import difflib.
Context `{SequenceMatcher}.

Lemma calculate_ratio_nonneg matches length :
  Qle_bool 0 (calculate_ratio matches length) = true.
Proof.
  apply Qle_bool_iff. destruct length; cbn [calculate_ratio]; [easy|].
  unfold Qle. cbn. lia.
Qed.

(** With [cutoff=0] no candidate is filtered out. *)
Lemma get_close_matches_cutoff_0 word possibilities n :
  get_close_matches word possibilities n 0 =
  (nlargest n ((fun x => (ratio x word, x)) <$> possibilities)).*2.
Proof.
  unfold get_close_matches. f_equal. f_equal.
  induction possibilities as [|x l IH]; [reflexivity|].
  cbn [omap list_omap fmap list_fmap]. rewrite IH.
  assert (Hpass : Qle_bool 0 (real_quick_ratio x word)
                  && Qle_bool 0 (quick_ratio x word)
                  && Qle_bool 0 (ratio x word) = true).
  { unfold real_quick_ratio, quick_ratio, ratio. now rewrite !calculate_ratio_nonneg. }
  now rewrite Hpass.
Qed.

Lemma nlargest_elem n result p : p ∈ nlargest n result -> p ∈ result.
Proof.
  unfold nlargest. intros Hp%subseteq_take.
  now rewrite merge_sort_Permutation in Hp.
Qed.

(** Every match is one of the possibilities. *)
Lemma get_close_matches_elem word possibilities n cutoff x :
  x ∈ get_close_matches word possibilities n cutoff -> x ∈ possibilities.
Proof.
  unfold get_close_matches. intros ([q y] & -> & Hp%nlargest_elem)%list_elem_of_fmap.
  apply list_elem_of_omap in Hp as (z & Hz & Hsome).
  destruct (_ && _); simplify_eq. exact Hz.
Qed.

(** No possibilities, no match. *)
Lemma get_close_matches_nil word n cutoff : get_close_matches word [] n cutoff = [].
Proof. unfold get_close_matches, nlargest. cbn. now rewrite take_nil. Qed.

(** With [n=1, cutoff=0] and at least one possibility there is exactly one match. *)
Lemma get_close_matches_best word possibilities :
  possibilities <> [] ->
  exists x, get_close_matches word possibilities 1 0 = [x] /\ x ∈ possibilities.
Proof.
  intros Hne. rewrite get_close_matches_cutoff_0. unfold nlargest.
  set (result := (fun x => (ratio x word, x)) <$> possibilities).
  assert (Hlen : length (merge_sort tuple_ge result) = length possibilities).
  { rewrite merge_sort_Permutation. unfold result. apply length_fmap. }
  destruct (merge_sort tuple_ge result) as [|[q x] sorted] eqn:E.
  - destruct possibilities; [congruence | discriminate].
  - exists x. cbn. rewrite take_0. split; [reflexivity|].
    assert (Hin : (q, x) ∈ result).
    { rewrite <- (merge_sort_Permutation tuple_ge result), E. apply list_elem_of_here. }
    apply list_elem_of_fmap in Hin as (y & [= -> ->] & Hy). exact Hy.
Qed.

End DifflibFacts.

Section DictFacts.
Import ModelCheckpoint.

Lemma elem_of_keys (logs : Logs) k : k ∈ keys logs <-> is_Some (logs !! k).
Proof.
  unfold keys. rewrite list_elem_of_fmap. split.
  - intros ([k' v] & -> & Hkv%elem_of_map_to_list). eauto.
  - intros [v Hv]. exists (k, v). split; [reflexivity|]. now apply elem_of_map_to_list.
Qed.

Lemma keys_empty : keys ∅ = [].
Proof. unfold keys. now rewrite map_to_list_empty. Qed.

Lemma keys_nonempty (logs : Logs) : logs <> ∅ -> keys logs <> [].
Proof.
  intros Hne Hk. apply Hne. apply map_to_list_empty_iff.
  unfold keys in Hk. now apply fmap_nil_inv in Hk.
Qed.

End DictFacts.

(** * Part 6: EarlyStopping *)

(** [logged kwargs key v]: the call's [logs] hold [v] under [key]. *)
Definition logged (kwargs : Kwargs) (key : string) (v : float) : Prop :=
  default ∅ (kw_logs kwargs) !! key = Some v.

(** [missing kwargs key]: the call's [logs] have no entry for [key]. *)
Definition missing (kwargs : Kwargs) (key : string) : Prop :=
  default ∅ (kw_logs kwargs) !! key = None.

(** A call that logs only [val_loss]. *)
Definition log_val_loss (v : float) : Kwargs :=
  {| kw_logs := Some {[ "val_loss" := v ]}; kw_epoch := None; kw_model := None |}.

(** The same call with [v] logged under [key]. *)
Definition with_log (kwargs : Kwargs) (key : string) (v : float) : Kwargs :=
  {| kw_logs := Some (<[key := v]> (default ∅ (kw_logs kwargs)));
     kw_epoch := kw_epoch kwargs;
     kw_model := kw_model kwargs |}.

Section EarlyStoppingFacts.
Import EarlyStopping.
Local Open Scope Z_scope.

Lemma logs_get_logged kwargs key v :
  logged kwargs key v -> logs_get (default ∅ (kw_logs kwargs)) key = v.
Proof. unfold logged, logs_get. now intros ->. Qed.

Lemma logs_get_missing kwargs key :
  missing kwargs key -> logs_get (default ∅ (kw_logs kwargs)) key = Py.inf.
Proof. unfold missing, logs_get. now intros ->. Qed.

(** The three ways through [on_epoch_end], by the value it reads. *)
Lemma on_epoch_end_improved self kwargs :
  let v := logs_get (default ∅ (kw_logs kwargs)) (metric_name self) in
  Py.lt v (best_loss self - delta self) = true ->
  on_epoch_end self kwargs = (false, set_improved self v).
Proof. intros v Hv. unfold on_epoch_end. fold v. now rewrite Hv. Qed.

Lemma on_epoch_end_worse self kwargs :
  let v := logs_get (default ∅ (kw_logs kwargs)) (metric_name self) in
  Py.lt v (best_loss self - delta self) = false ->
  Py.gt v (best_loss self + delta self) = true ->
  on_epoch_end self kwargs =
  (bool_decide (patience self <= counter self + 1), set_counter self (counter self + 1)).
Proof.
  intros v Hlt Hgt. unfold on_epoch_end. fold v. rewrite Hlt, Hgt.
  cbn [patience counter set_counter]. now case_bool_decide.
Qed.

Lemma on_epoch_end_plateau self kwargs :
  let v := logs_get (default ∅ (kw_logs kwargs)) (metric_name self) in
  Py.lt v (best_loss self - delta self) = false ->
  Py.gt v (best_loss self + delta self) = false ->
  on_epoch_end self kwargs = (false, self).
Proof. intros v Hlt Hgt. unfold on_epoch_end. fold v. now rewrite Hlt, Hgt. Qed.

Lemma after_app self calls1 calls2 :
  after self (calls1 ++ calls2) = after (after self calls1) calls2.
Proof. apply foldl_app. Qed.

Lemma after_snoc self calls kwargs :
  after self (calls ++ [kwargs]) = (on_epoch_end (after self calls) kwargs).2.
Proof. now rewrite after_app. Qed.

(** What every instance built by [init] and driven by [on_epoch_end] keeps:
    its configuration, a non-negative counter, a best loss that is not NaN. *)
Record reachable (p : Z) (d : float) (self : t) : Prop := {
  reach_patience : patience self = p;
  reach_delta : delta self = d;
  reach_counter : 0 <= counter self;
  reach_best : Py.le (best_loss self) (best_loss self) = true;
}.

Lemma reachable_init p d : reachable p d (init p d).
Proof. split; cbn; auto using Py.le_inf_refl with lia. Qed.

Lemma reachable_step p d self kwargs :
  reachable p d self -> reachable p d (on_epoch_end self kwargs).2.
Proof.
  intros [Hp Hd Hc Hb]. unfold on_epoch_end.
  destruct (Py.lt _ _) eqn:Hlt.
  - split; cbn; auto with lia. eapply Py.lt_le_refl_l, Hlt.
  - destruct (Py.gt _ _); [|now split].
    case_bool_decide; split; cbn in *; auto with lia.
Qed.

Lemma reachable_after p d calls : reachable p d (after (init p d) calls).
Proof.
  induction calls as [|kwargs calls IH] using rev_ind; [apply reachable_init|].
  rewrite after_snoc. now apply reachable_step.
Qed.

End EarlyStoppingFacts.

#[local] Set Warnings "-inexact-float".

Section EarlyStoppingClaims.
Import EarlyStopping.
Local Open Scope Z_scope.

(** C1, as stated, fails for a negative [delta].  With [patience=3] and
    [delta=-1.0], after losses 5.0 and 7.0 the best loss is 5.0 and the
    counter is 1; the loss 5.5 is above [best_loss + delta = 4.0], yet it is
    also below [best_loss - delta = 6.0], the test made first, so the call
    resets the counter instead of incrementing it. *)
Lemma early_stopping_negative_delta :
  ~ (forall p d calls kwargs v,
       let self := after (init p d) calls in
       let r := on_epoch_end self kwargs in
       logged kwargs (metric_name self) v ->
       Py.gt v (best_loss self + delta self) = true ->
       counter r.2 = counter self + 1 /\ (r.1 = true <-> p <= counter r.2)).
Proof.
  intros H.
  specialize (H 3 (-1)%float [log_val_loss 5; log_val_loss 7] (log_val_loss 5.5) 5.5%float).
  destruct H as [H _]; [reflexivity | reflexivity |].
  vm_compute in H. discriminate.
Qed.

(** C1 (amended): for [delta >= 0], a call whose logged [val_loss] is
    strictly greater than [best_loss + delta] increments the counter, leaves
    [best_loss] alone, and returns [True] exactly when the incremented
    counter has reached [patience]; and with [patience=2], [delta=0.0] the
    losses 1.0, 1.1, 1.2 give [False], [False], [True]. *)
Theorem early_stopping_counts_non_improvement :
  (forall self kwargs v,
     Py.le 0 (delta self) = true ->
     logged kwargs (metric_name self) v ->
     Py.gt v (best_loss self + delta self) = true ->
     let r := on_epoch_end self kwargs in
     counter r.2 = counter self + 1 /\
     best_loss r.2 = best_loss self /\
     (r.1 = true <-> patience self <= counter r.2)) /\
  (epochs (init 2 0) [log_val_loss 1.0; log_val_loss 1.1; log_val_loss 1.2]).*1
  = [false; false; true].
Proof.
  split; [|reflexivity].
  intros self kwargs v Hd Hv Hgt r.
  pose proof (Py.gt_add_not_lt_sub _ _ _ Hd Hgt) as Hlt.
  rewrite <- (logs_get_logged _ _ _ Hv) in Hgt, Hlt.
  unfold r. rewrite on_epoch_end_worse by assumption.
  cbn [fst snd set_counter counter best_loss patience]. repeat split; try reflexivity.
  - intros Hb. now apply bool_decide_eq_true in Hb.
  - intros Hb. now apply bool_decide_eq_true.
Qed.

Lemma early_stopping_counts_non_improvement_witness :
  let self := after (init 2 0.5) [log_val_loss 1.0] in
  let r := on_epoch_end self (log_val_loss 2.0) in
  counter r.2 = counter self + 1 /\
  best_loss r.2 = best_loss self /\
  (r.1 = true <-> patience self <= counter r.2).
Proof.
  exact (proj1 early_stopping_counts_non_improvement
           (after (init 2 0.5) [log_val_loss 1.0]) (log_val_loss 2.0) 2.0%float
           eq_refl eq_refl eq_refl).
Defined.

(** C2: a logged [val_loss] inside the closed band
    [[best_loss - delta, best_loss + delta]] changes nothing: the counter is
    neither reset nor incremented, [best_loss] stays, the call returns
    [False]. *)
Theorem early_stopping_plateau_ignored self kwargs v :
  logged kwargs (metric_name self) v ->
  Py.le (best_loss self - delta self) v = true ->
  Py.le v (best_loss self + delta self) = true ->
  on_epoch_end self kwargs = (false, self).
Proof.
  intros Hv Hlo Hhi.
  apply on_epoch_end_plateau; cbv zeta; rewrite (logs_get_logged _ _ _ Hv).
  - now apply Py.le_not_lt.
  - unfold Py.gt. fold (Py.lt (best_loss self + delta self) v). now apply Py.le_not_lt.
Qed.

Lemma early_stopping_plateau_ignored_witness :
  let self := after (init 2 0.5) [log_val_loss 1.0; log_val_loss 2.0] in
  on_epoch_end self (log_val_loss 1.25) = (false, self).
Proof.
  exact (early_stopping_plateau_ignored
           (after (init 2 0.5) [log_val_loss 1.0; log_val_loss 2.0])
           (log_val_loss 1.25) 1.25%float eq_refl eq_refl eq_refl).
Defined.

(** Each value is strictly below the best before it minus [delta]. *)
Fixpoint strictly_improving (best delta : float) (values : list float) : Prop :=
  match values with
  | [] => True
  | v :: rest => Py.lt v (best - delta) = true /\ strictly_improving v delta rest
  end.

(** C7: when every logged [val_loss] is strictly less than the best before
    it minus [delta], no call returns [True]: each call returns [False],
    stores the value as [best_loss] and sets the counter to zero. *)
Theorem early_stopping_never_stops_while_improving self calls values :
  Forall2 (fun kwargs v => logged kwargs (metric_name self) v) calls values ->
  strictly_improving (best_loss self) (delta self) values ->
  epochs self calls = (fun v => (false, set_improved self v)) <$> values /\
  Forall (fun r => r.1 = false /\ counter r.2 = 0) (epochs self calls).
Proof.
  intros Hlog Himp.
  assert (Heq : epochs self calls = (fun v => (false, set_improved self v)) <$> values).
  { revert self values Hlog Himp.
    induction calls as [|kwargs calls IH]; intros self values Hlog Himp.
    - now apply Forall2_nil_inv_l in Hlog as ->.
    - apply Forall2_cons_inv_l in Hlog as (v & rest & Hv & Hrest & ->).
      destruct Himp as [Hlt Himp]. cbn [epochs fmap list_fmap].
      rewrite on_epoch_end_improved by (cbv zeta; now rewrite (logs_get_logged _ _ _ Hv)).
      rewrite (logs_get_logged _ _ _ Hv). cbn [snd]. f_equal.
      rewrite (IH (set_improved self v) rest); [reflexivity | exact Hrest | exact Himp]. }
  split; [assumption|]. rewrite Heq. apply Forall_fmap, Forall_forall. now intros v _.
Qed.

Lemma early_stopping_never_stops_while_improving_witness :
  let self := init 1 0.5 in
  let calls := [log_val_loss 3.0; log_val_loss 2.0; log_val_loss 1.0] in
  epochs self calls = (fun v => (false, set_improved self v)) <$> [3.0; 2.0; 1.0]%float /\
  Forall (fun r => r.1 = false /\ counter r.2 = 0) (epochs self calls).
Proof.
  apply (early_stopping_never_stops_while_improving (init 1 0.5)
           [log_val_loss 3.0; log_val_loss 2.0; log_val_loss 1.0] [3.0; 2.0; 1.0]%float).
  - repeat constructor.
  - repeat split.
Defined.

(** C9: for [delta >= 0], along any sequence of [on_epoch_end] calls on a
    fresh instance [best_loss] starts at positive infinity and never
    increases.  A call either stores a value strictly smaller than
    [best_loss - delta] (hence strictly smaller than [best_loss]) and sets
    the counter to zero, or leaves [best_loss] alone and does not reset the
    counter, which then stays or grows by one. *)
Theorem early_stopping_best_loss_monotone p d calls kwargs more :
  Py.le 0 d = true ->
  let self := after (init p d) calls in
  let v := logs_get (default ∅ (kw_logs kwargs)) (metric_name self) in
  let r := on_epoch_end self kwargs in
  best_loss (init p d) = Py.inf /\
  Py.le (best_loss (after self more)) (best_loss self) = true /\
  ((Py.lt v (best_loss self - d) = true /\ Py.lt v (best_loss self) = true /\
    best_loss r.2 = v /\ counter r.2 = 0)
   \/
   (Py.lt v (best_loss self - d) = false /\ best_loss r.2 = best_loss self /\
    (counter r.2 = counter self \/ counter r.2 = counter self + 1 /\ 0 < counter r.2))).
Proof.
  intros Hd self v r. split; [reflexivity|].
  pose proof (reachable_after p d calls) as Hreach. fold self in Hreach.
  assert (Hstep : forall s kw, reachable p d s ->
            Py.le (best_loss (on_epoch_end s kw).2) (best_loss s) = true).
  { intros s kw [Hp Hdl Hc Hb]. unfold on_epoch_end.
    destruct (Py.lt _ _) eqn:Hlt.
    - cbn [snd set_improved best_loss]. apply Py.lt_le. rewrite Hdl in Hlt.
      eapply Py.lt_sub_nonneg; eassumption.
    - destruct (Py.gt _ _); [case_bool_decide|]; exact Hb. }
  split.
  - clear v r. revert Hreach. generalize self. clear self.
    induction more as [|kw more IH] using rev_ind; intros self Hreach.
    + apply Hreach.
    + rewrite after_snoc. eapply Py.le_trans; [|apply IH, Hreach].
      apply Hstep. clear IH. induction more as [|kw' more IH] using rev_ind; [assumption|].
      rewrite after_snoc. now apply reachable_step.
  - destruct Hreach as [Hp Hdl Hc Hb]. unfold r. rewrite <- Hdl.
    destruct (Py.lt v (best_loss self - delta self)) eqn:Hlt.
    + left. rewrite (on_epoch_end_improved self kwargs Hlt).
      repeat split. rewrite Hdl in Hlt. eapply Py.lt_sub_nonneg; eassumption.
    + right. split; [reflexivity|].
      destruct (Py.gt v (best_loss self + delta self)) eqn:Hgt.
      * rewrite (on_epoch_end_worse self kwargs Hlt Hgt).
        cbn [snd set_counter best_loss counter]. split; [reflexivity|]. right. lia.
      * rewrite (on_epoch_end_plateau self kwargs Hlt Hgt). auto.
Qed.

Lemma early_stopping_best_loss_monotone_witness :
  let self := after (init 2 0.5) [log_val_loss 3.0; log_val_loss 4.0] in
  let v := logs_get (default ∅ (kw_logs (log_val_loss 1.0))) (metric_name self) in
  let r := on_epoch_end self (log_val_loss 1.0) in
  best_loss (init 2 0.5) = Py.inf /\
  Py.le (best_loss (after self [log_val_loss 2.0; log_val_loss 9.0])) (best_loss self) = true /\
  ((Py.lt v (best_loss self - 0.5) = true /\ Py.lt v (best_loss self) = true /\
    best_loss r.2 = v /\ counter r.2 = 0)
   \/
   (Py.lt v (best_loss self - 0.5) = false /\ best_loss r.2 = best_loss self /\
    (counter r.2 = counter self \/ counter r.2 = counter self + 1 /\ 0 < counter r.2))).
Proof.
  exact (early_stopping_best_loss_monotone 2 0.5%float
           [log_val_loss 3.0; log_val_loss 4.0] (log_val_loss 1.0)
           [log_val_loss 2.0; log_val_loss 9.0] eq_refl).
Defined.

End EarlyStoppingClaims.

(** * Part 7: ModelCheckpoint *)

Section PathFacts.
Import os_path.

Lemma length_append (s1 s2 : string) :
  String.length (s1 +:+ s2) = (String.length s1 + String.length s2)%nat.
Proof.
  induction s1 as [|c s1 IH]; [reflexivity|].
  change (S (String.length (s1 +:+ s2)) = S (String.length s1 + String.length s2)).
  now rewrite IH.
Qed.

Lemma append_inj_r (s1 s2 t : string) : s1 +:+ t = s2 +:+ t -> s1 = s2.
Proof.
  revert s2. induction s1 as [|c s1 IH]; intros [|c2 s2] Heq.
  - reflexivity.
  - apply (f_equal String.length) in Heq.
    change (String.length t = S (String.length (s2 +:+ t))) in Heq.
    rewrite length_append in Heq. lia.
  - apply (f_equal String.length) in Heq.
    change (S (String.length (s1 +:+ t)) = String.length t) in Heq.
    rewrite length_append in Heq. lia.
  - injection Heq as -> Heq. f_equal. now apply IH.
Qed.

Lemma startswith_sep_append (job rest : string) :
  startswith_sep rest = false ->
  startswith_sep (job +:+ rest) = startswith_sep job.
Proof. intros Hrest. now destruct job. Qed.

(** For a fixed directory and prefix, [join] is injective in what follows
    the prefix, provided that does not start with a separator. *)
Lemma join_prefix_inj (dir job rest1 rest2 : string) :
  startswith_sep rest1 = false -> startswith_sep rest2 = false ->
  join dir (job +:+ rest1) = join dir (job +:+ rest2) -> rest1 = rest2.
Proof.
  intros H1 H2. unfold join. rewrite !startswith_sep_append by assumption.
  destruct (startswith_sep job); [|destruct (_ || _)]; intros Heq.
  - now apply String.app_inj in Heq.
  - now do 2 apply String.app_inj in Heq.
  - now do 3 apply String.app_inj in Heq.
Qed.

End PathFacts.

Section ModelCheckpointFacts.
Import difflib ModelCheckpoint.
Context `{SequenceMatcher}.
Local Open Scope Z_scope.

(** The arguments of a call, with the defaults of [kwargs.get]. *)
Definition logs_of (kwargs : Kwargs) : Logs := default ∅ (kw_logs kwargs).
Definition epoch_of (kwargs : Kwargs) : Z := default 0 (kw_epoch kwargs).
Definition model_of (kwargs : Kwargs) : torch.Module_ :=
  default torch.Sequential (kw_model kwargs).

(** The value [on_epoch_end] compares: [logs.get(self.monitor, inf)] once
    the monitored key is settled; none when settling it raises. *)
Definition monitored_value (self : t) (kwargs : Kwargs) : option float :=
  match find_monitor self (logs_of kwargs) (epoch_of kwargs) with
  | inr self' => Some (logs_get (logs_of kwargs) (monitor self'))
  | inl _ => None
  end.

(** Strict improvement as the specification words it. *)
Definition strictly_improves (mode : string) (current best : float) : bool :=
  if bool_decide (mode = "min") then Py.lt current best
  else if bool_decide (mode = "max") then Py.gt current best
  else false.

Lemma improves_iff self current :
  (bool_decide (mode self = "min") && Py.lt current (best_metric self))
  || (bool_decide (mode self = "max") && Py.gt current (best_metric self))
  = strictly_improves (mode self) current (best_metric self).
Proof.
  unfold strictly_improves. repeat case_bool_decide; cbn; try reflexivity.
  - congruence.
  - now rewrite orb_false_r.
Qed.

(** *** The lookup of the monitored key *)

Lemma find_monitor_other_epoch self logs epoch :
  epoch <> 1 -> find_monitor self logs epoch = inr self.
Proof. intros He. unfold find_monitor. now rewrite bool_decide_eq_false_2. Qed.

Lemma find_monitor_present self logs epoch :
  is_Some (logs !! monitor self) -> find_monitor self logs epoch = inr self.
Proof. intros [v Hv]. unfold find_monitor. rewrite Hv. now case_bool_decide. Qed.

Lemma find_monitor_no_logs self :
  find_monitor self ∅ 1 = inl IndexError.
Proof.
  unfold find_monitor. rewrite bool_decide_eq_true_2 by reflexivity.
  rewrite lookup_empty, keys_empty. now rewrite get_close_matches_nil.
Qed.

Lemma find_monitor_fallback self (logs : Logs) :
  logs <> ∅ -> logs !! monitor self = None ->
  exists k, get_close_matches (monitor self) (keys logs) 1 0 = [k] /\
            is_Some (logs !! k) /\
            find_monitor self logs 1 =
              if Py.truthy k then inr (set_monitor self k)
              else inl (ValueError (monitor self) (keys logs)).
Proof.
  intros Hne Hmiss.
  destruct (get_close_matches_best (monitor self) (keys logs) (keys_nonempty _ Hne))
    as (k & Hk & Hin).
  exists k. split; [assumption|]. split; [now apply elem_of_keys|].
  unfold find_monitor. rewrite bool_decide_eq_true_2 by reflexivity.
  now rewrite Hmiss, Hk.
Qed.

(** The lookup changes [monitor] at most. *)
Definition same_but_monitor (s1 s2 : t) : Prop :=
  slurm_job_id s1 = slurm_job_id s2 /\ save_path s1 = save_path s2 /\
  mode s1 = mode s2 /\ save_best_only s1 = save_best_only s2 /\
  best_metric s1 = best_metric s2 /\ best_epoch s1 = best_epoch s2.

Lemma find_monitor_inr self logs epoch self' :
  find_monitor self logs epoch = inr self' ->
  same_but_monitor self' self /\
  (self' = self \/ (epoch = 1 /\ logs !! monitor self = None /\ is_Some (logs !! monitor self'))).
Proof.
  unfold find_monitor. case_bool_decide as He.
  - destruct (logs !! monitor self) eqn:Hm.
    + intros [= <-]. repeat split; auto.
    + destruct (get_close_matches _ _ _ _) as [|k rest] eqn:Hk; [discriminate|].
      destruct (Py.truthy k); [|discriminate]. intros [= <-].
      split; [repeat split|]. right. repeat split; auto. cbn [monitor set_monitor].
      apply elem_of_keys, (get_close_matches_elem (monitor self) _ 1 0).
      rewrite Hk. apply list_elem_of_here.
  - intros [= <-]. repeat split; auto.
Qed.

Lemma find_monitor_inl self logs epoch e :
  find_monitor self logs epoch = inl e ->
  epoch = 1 /\ logs !! monitor self = None.
Proof.
  unfold find_monitor. case_bool_decide as He; [|discriminate].
  destruct (logs !! monitor self); [discriminate|]. auto.
Qed.

(** *** One call *)

Lemma on_epoch_end_raise self kwargs e :
  find_monitor self (logs_of kwargs) (epoch_of kwargs) = inl e ->
  on_epoch_end self kwargs = {| out := Raise e; self_after := self; saved := [] |}.
Proof. intros Hf. unfold on_epoch_end. fold (logs_of kwargs) (epoch_of kwargs). now rewrite Hf. Qed.

Lemma on_epoch_end_return self kwargs self' :
  find_monitor self (logs_of kwargs) (epoch_of kwargs) = inr self' ->
  on_epoch_end self kwargs =
  let current_metric := logs_get (logs_of kwargs) (monitor self') in
  if save_best_only self' then
    if strictly_improves (mode self') current_metric (best_metric self') then
      {| out := Return false;
         self_after := set_best self' current_metric (epoch_of kwargs);
         saved := [(torch.state_dict (model_of kwargs), best_file self')] |}
    else {| out := Return false; self_after := self'; saved := [] |}
  else
    {| out := Return false;
       self_after := self';
       saved := [(torch.state_dict (model_of kwargs), epoch_file self' (epoch_of kwargs))] |}.
Proof.
  intros Hf. unfold on_epoch_end.
  fold (logs_of kwargs) (epoch_of kwargs) (model_of kwargs). rewrite Hf.
  cbv zeta. now rewrite improves_iff.
Qed.

(** A call never changes where the instance saves, nor when. *)
Definition same_target (s1 s2 : t) : Prop :=
  slurm_job_id s1 = slurm_job_id s2 /\ save_path s1 = save_path s2 /\
  mode s1 = mode s2 /\ save_best_only s1 = save_best_only s2.

Lemma on_epoch_end_same_target self kwargs :
  same_target (self_after (on_epoch_end self kwargs)) self.
Proof.
  destruct (find_monitor self (logs_of kwargs) (epoch_of kwargs)) as [e|self'] eqn:Hf.
  - rewrite (on_epoch_end_raise _ _ _ Hf). now repeat split.
  - rewrite (on_epoch_end_return _ _ _ Hf). cbv zeta.
    apply find_monitor_inr in Hf as [(? & ? & ? & ? & ? & ?) _].
    unfold same_target.
    destruct (save_best_only self') eqn:Hb; [destruct (strictly_improves _ _ _)|];
      cbn [self_after set_best slurm_job_id save_path mode save_best_only];
      repeat split; congruence.
Qed.

Lemma same_target_best_file s1 s2 : same_target s1 s2 -> best_file s1 = best_file s2.
Proof. intros (Hj & Hp & _). unfold best_file. now rewrite Hj, Hp. Qed.

Lemma same_target_epoch_file s1 s2 epoch :
  same_target s1 s2 -> epoch_file s1 epoch = epoch_file s2 epoch.
Proof. intros (Hj & Hp & _). unfold epoch_file. now rewrite Hj, Hp. Qed.

Lemma same_target_trans s1 s2 s3 : same_target s1 s2 -> same_target s2 s3 -> same_target s1 s3.
Proof. unfold same_target. intuition congruence. Qed.

End ModelCheckpointFacts.

Section ModelCheckpointRuns.
Import difflib ModelCheckpoint.
Context `{SequenceMatcher}.
Local Open Scope Z_scope.

Lemma saved_by_nil self : saved_by self [] = [].
Proof. reflexivity. Qed.

Lemma saved_by_cons self kwargs rest :
  saved_by self (kwargs :: rest) =
  let r := on_epoch_end self kwargs in
  saved r ++ match out r with
             | Return _ => saved_by (self_after r) rest
             | Raise _ => []
             end.
Proof.
  unfold saved_by. cbn [epochs]. cbv zeta.
  destruct (out (on_epoch_end self kwargs)); cbn; [reflexivity | now rewrite app_nil_r].
Qed.

(** What one call saves, by the instance's [save_best_only]. *)
Lemma saved_best_only self kwargs :
  save_best_only self = true ->
  saved (on_epoch_end self kwargs) =
  match monitored_value self kwargs with
  | Some v =>
      if strictly_improves (mode self) v (best_metric self)
      then [(torch.state_dict (model_of kwargs), best_file self)] else []
  | None => []
  end.
Proof.
  intros Hb. unfold monitored_value.
  destruct (find_monitor self (logs_of kwargs) (epoch_of kwargs)) as [e|self'] eqn:Hf.
  - now rewrite (on_epoch_end_raise _ _ _ Hf).
  - rewrite (on_epoch_end_return _ _ _ Hf). cbv zeta.
    apply find_monitor_inr in Hf as [(Hj & Hp & Hm & Hs & Hbm & _) _].
    rewrite Hs, Hb, Hm, Hbm. unfold best_file. rewrite Hj, Hp.
    now destruct (strictly_improves _ _ _).
Qed.

Lemma saved_every_epoch self kwargs :
  save_best_only self = false ->
  saved (on_epoch_end self kwargs) =
  match out (on_epoch_end self kwargs) with
  | Return _ => [(torch.state_dict (model_of kwargs), epoch_file self (epoch_of kwargs))]
  | Raise _ => []
  end.
Proof.
  intros Hb.
  destruct (find_monitor self (logs_of kwargs) (epoch_of kwargs)) as [e|self'] eqn:Hf.
  - now rewrite (on_epoch_end_raise _ _ _ Hf).
  - rewrite (on_epoch_end_return _ _ _ Hf). cbv zeta.
    apply find_monitor_inr in Hf as [(Hj & Hp & Hm & Hs & Hbm & _) _].
    rewrite Hs, Hb. cbn [out saved]. unfold epoch_file. now rewrite Hj, Hp.
Qed.

Lemma saved_by_best_file self calls :
  save_best_only self = true ->
  Forall (fun call => call.2 = best_file self) (saved_by self calls).
Proof.
  revert self. induction calls as [|kwargs rest IH]; intros self Hb; [constructor|].
  rewrite saved_by_cons. cbv zeta. apply Forall_app. split.
  - rewrite saved_best_only by assumption.
    destruct (monitored_value self kwargs); [|constructor].
    destruct (strictly_improves _ _ _); repeat constructor.
  - destruct (out _); [|constructor].
    pose proof (on_epoch_end_same_target self kwargs) as Hsame.
    rewrite <- (same_target_best_file _ _ Hsame). apply IH.
    destruct Hsame as (_ & _ & _ & ->). exact Hb.
Qed.

(** Saving again and again to one path leaves the last content there. *)
Lemma save_all_one_path (fs : gmap string torch.StateDict) path calls :
  Forall (fun call => call.2 = path) calls ->
  torch.save_all fs calls =
  match last calls with
  | Some call => <[path := call.1]> fs
  | None => fs
  end.
Proof.
  induction calls as [|[sd p] calls IH] using rev_ind; intros Hall; [reflexivity|].
  apply Forall_app in Hall as [Hall Hlast]. rewrite Forall_singleton in Hlast. cbn in Hlast.
  unfold torch.save_all in *. rewrite foldl_snoc, last_snoc, IH by assumption.
  unfold torch.save. cbn [fst snd]. subst p.
  destruct (last calls); [apply insert_insert_eq | reflexivity].
Qed.

(** The paths written by a run that saves every epoch: one per call that
    returned, in order. *)
Lemma saved_by_every_epoch self calls :
  save_best_only self = false ->
  exists returned, returned `prefix_of` calls /\
    (saved_by self calls).*2 = (fun kwargs => epoch_file self (epoch_of kwargs)) <$> returned.
Proof.
  revert self. induction calls as [|kwargs rest IH]; intros self Hb.
  - exists []. split; [apply prefix_nil | reflexivity].
  - rewrite saved_by_cons. cbv zeta. rewrite saved_every_epoch by assumption.
    pose proof (on_epoch_end_same_target self kwargs) as Hsame.
    destruct (out (on_epoch_end self kwargs)).
    + destruct (IH (self_after (on_epoch_end self kwargs))) as (returned & Hpre & Heq).
      { destruct Hsame as (_ & _ & _ & ->). exact Hb. }
      exists (kwargs :: returned). split; [now apply prefix_cons|].
      cbn [app fmap list_fmap snd]. f_equal. rewrite Heq.
      apply list_fmap_ext. intros _ kw _. now apply same_target_epoch_file.
    + exists []. split; [apply prefix_nil | reflexivity].
Qed.

(** Distinct epochs have distinct files. *)
Lemma epoch_file_inj self : Inj (=) (=) (epoch_file self).
Proof.
  intros e1 e2 Heq. unfold epoch_file in Heq.
  apply join_prefix_inj in Heq; [|reflexivity..].
  apply String.app_inj in Heq. apply append_inj_r in Heq.
  now apply pretty_Z_inj in Heq.
Qed.

End ModelCheckpointRuns.

Section ModelCheckpointClaims.
Import difflib ModelCheckpoint.
Context `{SequenceMatcher}.
Local Open Scope Z_scope.

(** C3: at epoch 1 with no key at all in [logs] the call does not reach
    its [raise ValueError]: [get_close_matches] returns the empty list and
    indexing it with [[0]] raises [IndexError] first.  This holds whether
    [logs] is passed empty or left to its default. *)
Theorem checkpoint_no_logs_raises_index_error self model :
  on_epoch_end self {| kw_logs := Some ∅; kw_epoch := Some 1; kw_model := model |}
  = {| out := Raise IndexError; self_after := self; saved := [] |} /\
  on_epoch_end self {| kw_logs := None; kw_epoch := Some 1; kw_model := model |}
  = {| out := Raise IndexError; self_after := self; saved := [] |}.
Proof.
  split; apply on_epoch_end_raise; apply find_monitor_no_logs.
Qed.

(** C6 (amended): with [save_best_only=False] every call that returns
    saves exactly one file, whatever the monitored value, to
    [<save_path>/<job_id>_epoch_<N>.pth]; a call that raises (only at
    epoch 1, with the monitored key missing) saves nothing.  Distinct
    epochs give distinct paths, so a run whose epochs are pairwise distinct
    never writes a path twice. *)
Theorem checkpoint_every_epoch_saves_once self :
  save_best_only self = false ->
  (forall kwargs,
     let r := on_epoch_end self kwargs in
     match out r with
     | Return stop =>
         stop = false /\
         saved r = [(torch.state_dict (model_of kwargs),
                     os_path.join (save_path self)
                       (slurm_job_id self +:+ "_epoch_" +:+ Py.str_int (epoch_of kwargs)
                        +:+ ".pth"))]
     | Raise _ =>
         saved r = [] /\ epoch_of kwargs = 1 /\ missing kwargs (monitor self)
     end) /\
  (forall e1 e2, epoch_file self e1 = epoch_file self e2 -> e1 = e2) /\
  (forall calls, NoDup (epoch_of <$> calls) -> NoDup (saved_by self calls).*2).
Proof.
  intros Hb. split; [|split].
  - intros kwargs r. pose proof (saved_every_epoch self kwargs Hb) as Hs. fold r in Hs.
    unfold r in *.
    destruct (find_monitor self (logs_of kwargs) (epoch_of kwargs)) as [e|self'] eqn:Hf.
    + rewrite (on_epoch_end_raise _ _ _ Hf). cbn [out saved].
      apply find_monitor_inl in Hf as [He Hm]. auto.
    + rewrite (on_epoch_end_return _ _ _ Hf) in *. cbv zeta in *.
      destruct (save_best_only self'); [destruct (strictly_improves _ _ _)|];
        cbn [out saved] in *; split; try reflexivity; exact Hs.
  - apply epoch_file_inj.
  - intros calls Hnd.
    destruct (saved_by_every_epoch self calls Hb) as (returned & Hpre & ->).
    change (NoDup ((epoch_file self ∘ epoch_of) <$> returned)).
    rewrite (list_fmap_compose epoch_of (epoch_file self)).
    apply (@NoDup_fmap_2 _ _ (epoch_file self) (epoch_file_inj self)).
    apply (sublist_NoDup _ (epoch_of <$> calls)); [assumption|].
    destruct Hpre as [later ->]. rewrite fmap_app. now apply sublist_inserts_r.
Qed.

(** C8 (amended): both [on_epoch_begin] methods return [False] and leave
    the instance unchanged.  [ModelCheckpoint.on_epoch_end] never returns
    [True]: it returns [False] unless it raises, which it does only at epoch
    1 with the monitored key missing, leaving the instance unchanged and
    saving nothing. *)
Theorem callbacks_never_ask_to_stop :
  (forall self kwargs, EarlyStopping.on_epoch_begin self kwargs = (false, self)) /\
  (forall self kwargs, on_epoch_begin self kwargs = (false, self)) /\
  (forall self kwargs,
     let r := on_epoch_end self kwargs in
     out r <> Return true /\
     (out r = Return false \/
      exists e, r = {| out := Raise e; self_after := self; saved := [] |} /\
                epoch_of kwargs = 1 /\ missing kwargs (monitor self))).
Proof.
  split; [reflexivity|]. split; [reflexivity|].
  intros self kwargs r. unfold r.
  destruct (find_monitor self (logs_of kwargs) (epoch_of kwargs)) as [e|self'] eqn:Hf.
  - rewrite (on_epoch_end_raise _ _ _ Hf). split; [discriminate|]. right.
    apply find_monitor_inl in Hf as [He Hm]. eauto.
  - rewrite (on_epoch_end_return _ _ _ Hf). cbv zeta.
    destruct (save_best_only self'); [destruct (strictly_improves _ _ _)|];
      cbn [out]; split; try discriminate; now left.
Qed.

(** C10 (amended): at epoch 1 with non-empty [logs] that lack the
    monitored key, the closest-match lookup (cutoff 0) always returns a key
    [k] of [logs].  When [k] is a non-empty string the call returns [False]
    with [self.monitor] reassigned to [k]; when [k] is the empty string the
    call raises [ValueError] and the instance is unchanged.  If the epoch is
    not 1, or the monitored key is present, the call returns [False] with
    [self.monitor] unchanged; so along later epochs the monitored key stays
    whatever epoch 1 left. *)
Theorem checkpoint_monitor_fallback self kwargs :
  let logs := logs_of kwargs in
  let r := on_epoch_end self kwargs in
  (epoch_of kwargs = 1 -> logs <> ∅ -> logs !! monitor self = None ->
   exists k, get_close_matches (monitor self) (keys logs) 1 0 = [k] /\
             is_Some (logs !! k) /\
             if Py.truthy k
             then out r = Return false /\ monitor (self_after r) = k
             else r = {| out := Raise (ValueError (monitor self) (keys logs));
                         self_after := self; saved := [] |}) /\
  (epoch_of kwargs <> 1 \/ is_Some (logs !! monitor self) ->
   out r = Return false /\ monitor (self_after r) = monitor self) /\
  (forall calls, Forall (fun kw => epoch_of kw <> 1) calls ->
     Forall (fun r' => out r' = Return false /\ monitor (self_after r') = monitor self)
            (epochs self calls)).
Proof.
  intros logs r.
  assert (Hkeep : forall s kw,
            epoch_of kw <> 1 \/ is_Some (logs_of kw !! monitor s) ->
            out (on_epoch_end s kw) = Return false /\
            monitor (self_after (on_epoch_end s kw)) = monitor s).
  { intros s kw Hcase.
    assert (Hf : find_monitor s (logs_of kw) (epoch_of kw) = inr s).
    { destruct Hcase; [now apply find_monitor_other_epoch | now apply find_monitor_present]. }
    rewrite (on_epoch_end_return _ _ _ Hf). cbv zeta.
    destruct (save_best_only s); [destruct (strictly_improves _ _ _)|]; now cbn. }
  split; [|split].
  - intros He Hne Hmiss.
    destruct (find_monitor_fallback self logs Hne Hmiss) as (k & Hk & Hin & Hf).
    exists k. split; [assumption|]. split; [assumption|].
    unfold r. unfold logs in Hf. rewrite <- He in Hf.
    destruct (Py.truthy k).
    + rewrite (on_epoch_end_return _ _ _ Hf). cbv zeta.
      destruct (save_best_only _); [destruct (strictly_improves _ _ _)|]; now cbn.
    + now rewrite (on_epoch_end_raise _ _ _ Hf).
  - apply Hkeep.
  - intros calls. clear r. revert self. induction calls as [|kw rest IH]; intros self Hall.
    + constructor.
    + apply Forall_cons in Hall as [Hkw Hrest]. cbn [epochs].
      destruct (Hkeep self kw (or_introl Hkw)) as [Hout Hmon]. rewrite Hout.
      constructor; [now split|].
      rewrite <- Hmon. apply (IH (self_after (on_epoch_end self kw))), Hrest.
Qed.

End ModelCheckpointClaims.

(** * Part 8: a metric missing from [logs] *)

Section MissingMetric.
Import difflib.
Context `{SequenceMatcher}.
Local Open Scope Z_scope.

Lemma logs_of_with_log kwargs key v :
  logs_get (logs_of (with_log kwargs key v)) key = v.
Proof. unfold logs_get, logs_of, with_log. cbn. now rewrite lookup_insert_eq. Qed.

(** C4 (amended): when the monitored key is absent from [logs] (for
    [ModelCheckpoint]: at an epoch other than 1) either callback behaves
    exactly as if positive infinity had been logged for it.  In
    [EarlyStopping] that is never an improvement ([best_loss] is kept, the
    counter is not reset), and it counts as a non-improving epoch whenever
    [inf > best_loss + delta]: the counter grows by one and the call returns
    [True] once it has reached [patience]; otherwise nothing changes.  In
    [ModelCheckpoint] with [save_best_only] in "min" mode nothing is saved
    and the instance is unchanged. *)
Theorem missing_metric_counts_as_infinity :
  (forall (self : EarlyStopping.t) kwargs,
     missing kwargs (EarlyStopping.metric_name self) ->
     let r := EarlyStopping.on_epoch_end self kwargs in
     r = EarlyStopping.on_epoch_end self
           (with_log kwargs (EarlyStopping.metric_name self) Py.inf) /\
     EarlyStopping.best_loss r.2 = EarlyStopping.best_loss self /\
     if Py.gt Py.inf (EarlyStopping.best_loss self + EarlyStopping.delta self)
     then EarlyStopping.counter r.2 = EarlyStopping.counter self + 1 /\
          (r.1 = true <-> EarlyStopping.patience self <= EarlyStopping.counter r.2)
     else r = (false, self)) /\
  (forall (self : ModelCheckpoint.t) kwargs,
     epoch_of kwargs <> 1 ->
     missing kwargs (ModelCheckpoint.monitor self) ->
     let r := ModelCheckpoint.on_epoch_end self kwargs in
     r = ModelCheckpoint.on_epoch_end self
           (with_log kwargs (ModelCheckpoint.monitor self) Py.inf) /\
     (ModelCheckpoint.save_best_only self = true ->
      ModelCheckpoint.mode self = "min" ->
      r = {| ModelCheckpoint.out := ModelCheckpoint.Return false;
             ModelCheckpoint.self_after := self;
             ModelCheckpoint.saved := [] |})).
Proof.
  split.
  - intros self kwargs Hmiss r.
    pose proof (logs_get_missing _ _ Hmiss) as Hv.
    assert (Hlt : Py.lt (logs_get (default ∅ (kw_logs kwargs)) (EarlyStopping.metric_name self))
                    (EarlyStopping.best_loss self - EarlyStopping.delta self) = false)
      by (rewrite Hv; apply Py.lt_inf_l).
    split; [|split].
    + unfold r, EarlyStopping.on_epoch_end.
      pose proof (logs_of_with_log kwargs (EarlyStopping.metric_name self) Py.inf) as Hw.
      unfold logs_of in Hw. now rewrite Hw, Hv.
    + unfold r, EarlyStopping.on_epoch_end. rewrite Hlt.
      destruct (Py.gt _ _); [case_bool_decide|]; reflexivity.
    + destruct (Py.gt _ _) eqn:Hgt; rewrite <- Hv in Hgt.
      * unfold r. rewrite (on_epoch_end_worse self kwargs Hlt Hgt).
        cbn [fst snd EarlyStopping.set_counter EarlyStopping.counter EarlyStopping.patience].
        split; [reflexivity|]. apply bool_decide_eq_true.
      * unfold r. now rewrite (on_epoch_end_plateau self kwargs Hlt Hgt).
  - intros self kwargs He Hmiss r.
    pose proof (logs_get_missing _ _ Hmiss) as Hv. fold (logs_of kwargs) in Hv.
    assert (Hf : ModelCheckpoint.find_monitor self (logs_of kwargs) (epoch_of kwargs) = inr self)
      by now apply find_monitor_other_epoch.
    assert (Hf' : ModelCheckpoint.find_monitor self
                    (logs_of (with_log kwargs (ModelCheckpoint.monitor self) Py.inf))
                    (epoch_of (with_log kwargs (ModelCheckpoint.monitor self) Py.inf)) = inr self)
      by now apply find_monitor_other_epoch.
    unfold r. rewrite (on_epoch_end_return _ _ _ Hf), (on_epoch_end_return _ _ _ Hf').
    cbv zeta. rewrite logs_of_with_log, Hv. split; [reflexivity|].
    intros -> Hmode. unfold strictly_improves. rewrite Hmode.
    rewrite bool_decide_eq_true_2 by reflexivity. now rewrite Py.lt_inf_l.
Qed.

End MissingMetric.

(** * Part 9: the claims on concrete runs *)

Section Concrete.
Import difflib.
#[local] Existing Instance longest_blocks.
Local Open Scope Z_scope.

(** A call with the given [logs] and [epoch], and no [model]. *)
Definition epoch_call (logs : Logs) (epoch : Z) : Kwargs :=
  {| kw_logs := Some logs; kw_epoch := Some epoch; kw_model := None |}.

(** C4, as stated, fails in both callbacks.  [EarlyStopping] with
    [patience=1], whose best loss is 1.0, is called at epoch 2 without
    [val_loss]: the counter goes from 0 to 1 and the call returns [True].
    [ModelCheckpoint] in "max" mode with [save_best_only] is called at epoch
    2 without its key: infinity beats the initial best and the weights are
    saved. *)
Lemma missing_metric_is_not_ignored :
  ~ (forall p d calls kwargs,
       let self := EarlyStopping.after (EarlyStopping.init p d) calls in
       let r := EarlyStopping.on_epoch_end self kwargs in
       missing kwargs (EarlyStopping.metric_name self) ->
       EarlyStopping.counter r.2 = EarlyStopping.counter self /\ r.1 = false) /\
  ~ (forall (matcher : SequenceMatcher) (self : ModelCheckpoint.t) kwargs,
       1 < epoch_of kwargs ->
       missing kwargs (ModelCheckpoint.monitor self) ->
       ModelCheckpoint.save_best_only self = true ->
       ModelCheckpoint.mode self = "min" \/ ModelCheckpoint.mode self = "max" ->
       ModelCheckpoint.saved (ModelCheckpoint.on_epoch_end self kwargs) = []).
Proof.
  split.
  - intros Hclaim.
    specialize (Hclaim 1 0%float [log_val_loss 1.0] (epoch_call ∅ 2) eq_refl).
    destruct Hclaim as [_ Hstop]. vm_compute in Hstop. discriminate.
  - intros Hclaim.
    specialize (Hclaim longest_blocks
                  (ModelCheckpoint.init "123" "/ckpt" "val_acc" "max" true)
                  (epoch_call ∅ 2) eq_refl eq_refl eq_refl (or_intror eq_refl)).
    vm_compute in Hclaim. discriminate.
Qed.

Lemma missing_metric_counts_as_infinity_witness :
  let self := EarlyStopping.after (EarlyStopping.init 1 0) [log_val_loss 1.0] in
  let r := EarlyStopping.on_epoch_end self (epoch_call ∅ 2) in
  r = EarlyStopping.on_epoch_end self (with_log (epoch_call ∅ 2) "val_loss" Py.inf) /\
  EarlyStopping.best_loss r.2 = EarlyStopping.best_loss self /\
  if Py.gt Py.inf (EarlyStopping.best_loss self + EarlyStopping.delta self)
  then EarlyStopping.counter r.2 = EarlyStopping.counter self + 1 /\
       (r.1 = true <-> EarlyStopping.patience self <= EarlyStopping.counter r.2)
  else r = (false, self).
Proof.
  exact (proj1 missing_metric_counts_as_infinity
           (EarlyStopping.after (EarlyStopping.init 1 0) [log_val_loss 1.0])
           (epoch_call ∅ 2) eq_refl).
Defined.

(** C6, as stated, fails at epoch 1: with [save_best_only=False] and empty
    [logs] the call raises before it saves anything. *)
Lemma checkpoint_every_epoch_can_save_nothing :
  ~ (forall (matcher : SequenceMatcher) (self : ModelCheckpoint.t) kwargs,
       ModelCheckpoint.save_best_only self = false ->
       ModelCheckpoint.saved (ModelCheckpoint.on_epoch_end self kwargs)
       = [(torch.state_dict (model_of kwargs),
           ModelCheckpoint.epoch_file self (epoch_of kwargs))]).
Proof.
  intros Hclaim.
  specialize (Hclaim longest_blocks
                (ModelCheckpoint.init "123" "/ckpt" "val_loss" "min" false)
                (epoch_call ∅ 1) eq_refl).
  vm_compute in Hclaim. discriminate.
Qed.

Lemma checkpoint_every_epoch_saves_once_witness :
  let self := ModelCheckpoint.init "123" "/ckpt" "val_loss" "min" false in
  ModelCheckpoint.saved_by self
    [epoch_call {[ "val_loss" := 1.0%float ]} 1; epoch_call {[ "val_loss" := 2.0%float ]} 2]
  = [([], "/ckpt/123_epoch_1.pth"); ([], "/ckpt/123_epoch_2.pth")] /\
  NoDup (ModelCheckpoint.saved_by self
           [epoch_call {[ "val_loss" := 1.0%float ]} 1;
            epoch_call {[ "val_loss" := 2.0%float ]} 2]).*2.
Proof.
  split; [reflexivity|].
  apply (proj2 (proj2 (checkpoint_every_epoch_saves_once
                         (ModelCheckpoint.init "123" "/ckpt" "val_loss" "min" false)
                         eq_refl))).
  apply NoDup_cons_2; [|apply NoDup_singleton].
  intros Hin%list_elem_of_singleton. discriminate.
Defined.

(** The fallback at work: at epoch 1 with keys [loss] and [val_acc] but no
    [val_loss], the closest key is [loss] (ratio 8/12 against 8/15); the
    call monitors it from then on and saves its first value. *)
Example checkpoint_fallback_picks_loss :
  let self := ModelCheckpoint.init "123" "/ckpt" "val_loss" "min" true in
  let r := ModelCheckpoint.on_epoch_end self
             (epoch_call {[ "loss" := 1.0%float; "val_acc" := 0.5%float ]} 1) in
  ModelCheckpoint.out r = ModelCheckpoint.Return false /\
  ModelCheckpoint.monitor (ModelCheckpoint.self_after r) = "loss" /\
  ModelCheckpoint.best_metric (ModelCheckpoint.self_after r) = 1.0%float /\
  ModelCheckpoint.saved r = [([], "/ckpt/123.pth")].
Proof. repeat split. Qed.

(** C8, as stated, fails at epoch 1 with empty [logs]:
    [ModelCheckpoint.on_epoch_end] raises instead of returning [False]. *)
Lemma checkpoint_does_not_always_return :
  ~ (forall (matcher : SequenceMatcher) (self : ModelCheckpoint.t) kwargs,
       ModelCheckpoint.out (ModelCheckpoint.on_epoch_end self kwargs)
       = ModelCheckpoint.Return false).
Proof.
  intros Hclaim.
  specialize (Hclaim longest_blocks
                (ModelCheckpoint.init "123" "/ckpt" "val_loss" "min" true)
                (epoch_call ∅ 1)).
  vm_compute in Hclaim. discriminate.
Qed.

(** C10, as stated, fails when the closest key is the empty string: with
    [logs = {"": 1.0}] at epoch 1 the lookup returns [""], which is falsy,
    so the call raises [ValueError] and [self.monitor] stays ["val_loss"],
    which is not a key of [logs]. *)
Lemma checkpoint_fallback_can_fail :
  ~ (forall (matcher : SequenceMatcher) (self : ModelCheckpoint.t) kwargs,
       epoch_of kwargs = 1 ->
       logs_of kwargs <> ∅ ->
       missing kwargs (ModelCheckpoint.monitor self) ->
       let r := ModelCheckpoint.on_epoch_end self kwargs in
       ModelCheckpoint.out r = ModelCheckpoint.Return false /\
       is_Some (logs_of kwargs !! ModelCheckpoint.monitor (ModelCheckpoint.self_after r))).
Proof.
  intros Hclaim.
  specialize (Hclaim longest_blocks
                (ModelCheckpoint.init "123" "/ckpt" "val_loss" "min" true)
                (epoch_call {[ "" := 1.0%float ]} 1) eq_refl).
  destruct Hclaim as [Hout _].
  - intros Hempty. apply (f_equal (fun m => m !! "")) in Hempty.
    vm_compute in Hempty. discriminate.
  - reflexivity.
  - vm_compute in Hout. discriminate.
Qed.

End Concrete.

(** * Part 10: further properties of the callbacks *)

(** ** More order facts: NaN and totality *)

Section MoreOrder.
Import Binary64.
Local Open Scope Z_scope.

(** [math.isnan(x)]: NaN is the one float for which [x <= x] is false. *)
Definition isnan (x : float) : bool := negb (Py.le x x).

Lemma isnan_fkey x : isnan x = true <-> fkey x = None.
Proof.
  unfold isnan. rewrite negb_true_iff. split.
  - intros Hle. destruct (fkey x) as [a|] eqn:Ha; [|reflexivity].
    assert (Py.le x x = true) by (apply Py.le_spec; exists a, a; auto with lia). congruence.
  - intros Hx. apply Py.not_true_false. intros (a & b & Ha & _)%Py.le_spec. congruence.
Qed.

(** Every comparison with NaN is false. *)
Lemma lt_nan_l x y : isnan x = true -> Py.lt x y = false.
Proof.
  intros Hx%isnan_fkey. apply Py.not_true_false.
  intros (a & b & Ha & _)%Py.lt_spec. congruence.
Qed.

Lemma lt_nan_r x y : isnan y = true -> Py.lt x y = false.
Proof.
  intros Hy%isnan_fkey. apply Py.not_true_false.
  intros (a & b & _ & Hb & _)%Py.lt_spec. congruence.
Qed.

(** NaN propagates through [-] and [+]. *)
Lemma isnan_sub b d : isnan b = true \/ isnan d = true -> isnan (b - d) = true.
Proof.
  rewrite !isnan_fkey. intros Hnan.
  destruct (fkey (b - d)) as [k|] eqn:Hk; [|reflexivity].
  destruct (fkey_sub_defined _ _ _ Hk) as [[? ?] [? ?]]. destruct Hnan; congruence.
Qed.

Lemma isnan_add b d : isnan b = true \/ isnan d = true -> isnan (b + d) = true.
Proof.
  rewrite !isnan_fkey. intros Hnan.
  destruct (fkey (b + d)) as [k|] eqn:Hk; [|reflexivity].
  destruct (fkey_add_defined _ _ _ Hk) as [[? ?] [? ?]]. destruct Hnan; congruence.
Qed.

(** Floats that are not NaN are totally ordered. *)
Lemma le_total x y :
  Py.le x x = true -> Py.le y y = true -> Py.lt x y = false -> Py.le y x = true.
Proof.
  intros (a & ? & Ha & _)%Py.le_spec (b & ? & Hb & _)%Py.le_spec Hlt.
  apply Py.le_spec. exists b, a. repeat split; auto.
  destruct (Z_le_gt_dec b a); [assumption|].
  assert (Py.lt x y = true) by (apply Py.lt_spec; exists a, b; auto with lia). congruence.
Qed.

Lemma lt_le_refl_r x y : Py.lt x y = true -> Py.le y y = true.
Proof. intros (a & b & Ha & Hb & H)%Py.lt_spec. apply Py.le_spec. exists b, b. auto with lia. Qed.

(** Adding to positive infinity gives positive infinity or NaN: nothing is above it. *)
Lemma gt_inf_add v d : Py.gt v (Py.inf + d) = false.
Proof.
  apply Py.not_true_false. intros (a & k & Ha & Hk & Hlt)%Py.gt_spec.
  apply fkey_bounds in Ha. revert Hk. unfold fkey, Py.inf. cbv zeta.
  rewrite add_spec. unfold SF64add. change (Prim2SF infinity) with (S754_infinity false).
  destruct (Prim2SF d) as [s|[]| |s m e]; cbn [SFadd is_nan key]; intros [= <-]; lia.
Qed.

Lemma le_lt_trans x y z : Py.le x y = true -> Py.lt y z = true -> Py.lt x z = true.
Proof.
  intros (a & b & Ha & Hb & H)%Py.le_spec (b' & c & Hb' & Hc & H')%Py.lt_spec. simplify_eq.
  apply Py.lt_spec. exists a, c. repeat split; auto. lia.
Qed.

End MoreOrder.

(** ** EarlyStopping *)

Section EarlyStoppingMore.
Import EarlyStopping.
Local Open Scope Z_scope.

(** A call never lowers the counter below zero nor raises it by more than one. *)
Lemma counter_step self kwargs :
  0 <= counter self ->
  0 <= counter (on_epoch_end self kwargs).2 <= counter self + 1.
Proof.
  intros Hc. unfold on_epoch_end.
  destruct (Py.lt _ _); [cbn; lia|].
  destruct (Py.gt _ _); [case_bool_decide|]; cbn; lia.
Qed.

(** A call returns [True] only with the counter at [patience] or above. *)
Lemma stop_counter self kwargs :
  (on_epoch_end self kwargs).1 = true ->
  patience self <= counter (on_epoch_end self kwargs).2.
Proof.
  unfold on_epoch_end.
  destruct (Py.lt _ _); [discriminate|].
  destruct (Py.gt _ _); [|discriminate].
  case_bool_decide; [|discriminate]. intros _. assumption.
Qed.

(** The first call on a fresh instance has nothing to be worse than. *)
Lemma first_call p d kwargs :
  (on_epoch_end (init p d) kwargs).1 = false /\
  counter (on_epoch_end (init p d) kwargs).2 = 0.
Proof.
  unfold on_epoch_end. destruct (Py.lt _ _); [now cbn|].
  cbn [best_loss init delta]. now rewrite gt_inf_add.
Qed.

End EarlyStoppingMore.

Section EarlyStoppingExtras.
Import EarlyStopping.
Local Open Scope Z_scope.

Lemma patience_step self kwargs : patience (on_epoch_end self kwargs).2 = patience self.
Proof.
  unfold on_epoch_end. destruct (Py.lt _ _); [reflexivity|].
  destruct (Py.gt _ _); [case_bool_decide|]; reflexivity.
Qed.

(** With the counter at most [c], the call number [i] (from 0) can return
    [True] only if [patience <= c + i + 1]. *)
Lemma stop_needs_calls self c calls i r :
  0 <= counter self <= c ->
  epochs self calls !! i = Some r -> r.1 = true ->
  patience self <= c + Z.of_nat i + 1.
Proof.
  revert self c i. induction calls as [|kwargs rest IH]; intros self c i Hc Hi Hr; [easy|].
  cbn [epochs] in Hi. destruct i as [|i].
  - injection Hi as <-. pose proof (stop_counter _ _ Hr).
    pose proof (counter_step self kwargs ltac:(lia)). lia.
  - cbn in Hi. pose proof (counter_step self kwargs ltac:(lia)) as Hc'.
    pose proof (IH (on_epoch_end self kwargs).2 (c + 1) i ltac:(lia) Hi Hr) as Hp.
    rewrite patience_step in Hp. lia.
Qed.

(** X1: a fresh instance never asks to stop during its first
    [max(patience, 1)] calls, whatever [delta] is and whatever is logged. *)
Theorem early_stopping_waits_for_patience p d calls :
  Forall (fun r => r.1 = false) (take (Z.to_nat (Z.max p 1)) (epochs (init p d) calls)).
Proof.
  apply Forall_lookup. intros i r Hi.
  apply lookup_take_Some in Hi as [Hi Hlt].
  destruct (r.1) eqn:Hr; [exfalso|reflexivity].
  destruct calls as [|kwargs rest]; [easy|].
  cbn [epochs] in Hi. destruct (first_call p d kwargs) as [Hfalse Hzero].
  destruct i as [|i].
  - injection Hi as <-. congruence.
  - cbn in Hi.
    pose proof (stop_needs_calls (on_epoch_end (init p d) kwargs).2 0 rest i r
                  ltac:(lia) Hi Hr) as Hp.
    rewrite patience_step in Hp. cbn [patience init] in Hp. lia.
Qed.

(** No call touches the configuration or [best_epoch]. *)
Lemma configuration_kept self calls :
  patience (after self calls) = patience self /\
  delta (after self calls) = delta self /\
  metric_name (after self calls) = metric_name self /\
  best_epoch (after self calls) = best_epoch self.
Proof.
  induction calls as [|kwargs rest IH] using rev_ind; [now cbn|].
  rewrite after_snoc. destruct IH as (<- & <- & <- & <-).
  unfold on_epoch_end. destruct (Py.lt _ _); [now cbn|].
  destruct (Py.gt _ _); [case_bool_decide|]; now cbn.
Qed.

(** X2: no sequence of calls changes [patience], [delta], [metric_name] or
    [best_epoch]; in particular [best_epoch] is never set and stays at the 0
    that [__init__] gave it, whatever improvement the calls record. *)
Theorem early_stopping_keeps_configuration self p d calls :
  patience (after self calls) = patience self /\
  delta (after self calls) = delta self /\
  metric_name (after self calls) = metric_name self /\
  best_epoch (after self calls) = best_epoch self /\
  best_epoch (after (init p d) calls) = 0.
Proof.
  destruct (configuration_kept self calls) as (? & ? & ? & ?).
  destruct (configuration_kept (init p d) calls) as (_ & _ & _ & ?). auto.
Qed.

(** X3: with [delta >= 0], a run of calls whose logged values are all
    strictly above [best_loss + delta] leaves [best_loss] alone, raises the
    counter by one per call, and call number [i] (from 0) returns [True]
    exactly when [patience <= counter + i + 1]: stop is first signalled when
    the counter reaches [patience] and on every such call after it. *)
Theorem early_stopping_run_without_improvement self calls values :
  Py.le 0 (delta self) = true ->
  Forall2 (fun kwargs v => logged kwargs (metric_name self) v) calls values ->
  Forall (fun v => Py.gt v (best_loss self + delta self) = true) values ->
  epochs self calls =
  imap (fun i _ =>
          (bool_decide (patience self <= counter self + Z.of_nat i + 1),
           set_counter self (counter self + Z.of_nat i + 1)))
       values.
Proof.
  intros Hd. revert self values Hd.
  induction calls as [|kwargs rest IH]; intros self values Hd Hlog Hworse.
  - now apply Forall2_nil_inv_l in Hlog as ->.
  - apply Forall2_cons_inv_l in Hlog as (v & vs & Hv & Hrest & ->).
    apply Forall_cons in Hworse as [Hgt Hworse].
    pose proof (Py.gt_add_not_lt_sub _ _ _ Hd Hgt) as Hlt.
    rewrite <- (logs_get_logged _ _ _ Hv) in Hgt, Hlt.
    cbn [epochs imap]. rewrite (on_epoch_end_worse self kwargs Hlt Hgt).
    cbn [snd]. rewrite Z.add_0_r. f_equal.
    rewrite (IH (set_counter self (counter self + 1)) vs); [|assumption..].
    apply imap_ext. intros i x _. cbn [compose patience counter set_counter].
    rewrite Nat2Z.inj_succ.
    replace (counter self + 1 + Z.of_nat i + 1) with (counter self + Z.succ (Z.of_nat i) + 1) by lia.
    reflexivity.
Qed.

Lemma early_stopping_run_without_improvement_witness :
  let self := after (init 2 0.5) [log_val_loss 1.0] in
  epochs self [log_val_loss 2.0; log_val_loss 1.75; log_val_loss 3.0] =
  imap (fun i _ =>
          (bool_decide (patience self <= counter self + Z.of_nat i + 1),
           set_counter self (counter self + Z.of_nat i + 1)))
       [2.0; 1.75; 3.0]%float.
Proof.
  apply (early_stopping_run_without_improvement
           (after (init 2 0.5) [log_val_loss 1.0])
           [log_val_loss 2.0; log_val_loss 1.75; log_val_loss 3.0] [2.0; 1.75; 3.0]%float).
  - reflexivity.
  - repeat constructor.
  - repeat constructor.
Defined.

(** X4: NaN switches the callback off.  When the value read from [logs] is
    NaN, or [delta] is NaN, both comparisons are false: the call returns
    [False] and changes nothing, so a diverged loss never stops training. *)
Theorem early_stopping_ignores_nan self kwargs :
  isnan (logs_get (default ∅ (kw_logs kwargs)) (metric_name self)) = true
  \/ isnan (delta self) = true ->
  on_epoch_end self kwargs = (false, self).
Proof.
  intros Hnan. apply on_epoch_end_plateau; cbv zeta.
  - destruct Hnan as [Hv|Hd]; [now apply lt_nan_l|].
    apply lt_nan_r, isnan_sub. now right.
  - unfold Py.gt. fold (Py.lt (best_loss self + delta self)
                              (logs_get (default ∅ (kw_logs kwargs)) (metric_name self))).
    destruct Hnan as [Hv|Hd]; [now apply lt_nan_r|].
    apply lt_nan_l, isnan_add. now right.
Qed.

Lemma early_stopping_ignores_nan_witness :
  let self := after (init 1 0) [log_val_loss 1.0; log_val_loss 2.0] in
  on_epoch_end self (log_val_loss nan) = (false, self).
Proof.
  exact (early_stopping_ignores_nan
           (after (init 1 0) [log_val_loss 1.0; log_val_loss 2.0])
           (log_val_loss nan) (or_introl eq_refl)).
Defined.

End EarlyStoppingExtras.

(** ** ModelCheckpoint *)

Section ModelCheckpointMore.
Import difflib ModelCheckpoint.
Context `{SequenceMatcher}.
Local Open Scope Z_scope.

(** The instance a sequence of calls leaves behind. *)
Definition final (self : t) (calls : list Kwargs) : t :=
  default self (self_after <$> last (epochs self calls)).

(** The values compared by the calls of a sequence, up to the first that raises. *)
Fixpoint monitored_values (self : t) (calls : list Kwargs) : list float :=
  match calls with
  | [] => []
  | kwargs :: rest =>
      match monitored_value self kwargs with
      | Some v => v :: monitored_values (self_after (on_epoch_end self kwargs)) rest
      | None => []
      end
  end.

(** [no_worse mode a b]: in the given mode, [a] is at least as good as [b]. *)
Definition no_worse (mode : string) (a b : float) : bool :=
  if bool_decide (mode = "min") then Py.le a b else Py.le b a.

Lemma final_cons self kwargs rest :
  final self (kwargs :: rest) =
  let r := on_epoch_end self kwargs in
  match out r with
  | Return _ => final (self_after r) rest
  | Raise _ => self_after r
  end.
Proof.
  unfold final. cbn [epochs]. cbv zeta.
  destruct (out (on_epoch_end self kwargs)); [|reflexivity].
  rewrite last_cons. now destruct (last (epochs _ rest)).
Qed.

(** One call, by what the lookup of the monitored key gives. *)
Lemma on_epoch_end_raised self kwargs :
  monitored_value self kwargs = None ->
  exists e, on_epoch_end self kwargs = {| out := Raise e; self_after := self; saved := [] |}.
Proof.
  unfold monitored_value.
  destruct (find_monitor self (logs_of kwargs) (epoch_of kwargs)) as [e|s] eqn:Hf; [|discriminate].
  intros _. exists e. now apply on_epoch_end_raise.
Qed.

Lemma on_epoch_end_returned self kwargs v :
  monitored_value self kwargs = Some v ->
  let r := on_epoch_end self kwargs in
  out r = Return false /\
  same_target (self_after r) self /\
  if save_best_only self && strictly_improves (mode self) v (best_metric self)
  then best_metric (self_after r) = v /\ best_epoch (self_after r) = epoch_of kwargs /\
       saved r = [(torch.state_dict (model_of kwargs), best_file self)]
  else best_metric (self_after r) = best_metric self /\
       best_epoch (self_after r) = best_epoch self /\
       (save_best_only self = true -> saved r = []).
Proof.
  intros Hv r. unfold r. clear r. unfold monitored_value in Hv.
  pose proof (on_epoch_end_same_target self kwargs) as Hsame.
  destruct (find_monitor self (logs_of kwargs) (epoch_of kwargs)) as [e|s] eqn:Hf; [discriminate|].
  injection Hv as <-.
  pose proof (find_monitor_inr _ _ _ _ Hf) as [(Hj & Hp & Hm & Hs & Hbm & Hbe) _].
  rewrite (on_epoch_end_return _ _ _ Hf) in Hsame |- *. cbv zeta in Hsame |- *.
  rewrite <- Hs, <- Hm, <- Hbm, <- Hbe. unfold best_file. rewrite <- Hj, <- Hp.
  destruct (save_best_only s); [destruct (strictly_improves _ _ _)|];
    cbn [andb out self_after saved best_metric best_epoch set_best] in *;
    (split; [reflexivity|]); (split; [exact Hsame|]); auto.
  repeat split. intros [=].
Qed.

Lemma saved_by_returned self kwargs rest v :
  monitored_value self kwargs = Some v ->
  saved_by self (kwargs :: rest) =
  saved (on_epoch_end self kwargs) ++ saved_by (self_after (on_epoch_end self kwargs)) rest.
Proof.
  intros Hv. rewrite saved_by_cons. cbv zeta.
  now destruct (on_epoch_end_returned _ _ _ Hv) as (-> & _).
Qed.

Lemma final_returned self kwargs rest v :
  monitored_value self kwargs = Some v ->
  final self (kwargs :: rest) = final (self_after (on_epoch_end self kwargs)) rest.
Proof.
  intros Hv. rewrite final_cons. cbv zeta.
  now destruct (on_epoch_end_returned _ _ _ Hv) as (-> & _).
Qed.

Lemma final_raised self kwargs rest :
  monitored_value self kwargs = None ->
  final self (kwargs :: rest) = self /\ saved_by self (kwargs :: rest) = [].
Proof.
  intros [e He]%on_epoch_end_raised. rewrite final_cons, saved_by_cons. cbv zeta.
  now rewrite He.
Qed.

(** A run in which no call improves: nothing is saved, the best is kept. *)
Lemma run_without_improvement self calls :
  save_best_only self = true ->
  Forall (fun v => strictly_improves (mode self) v (best_metric self) = false)
         (monitored_values self calls) ->
  saved_by self calls = [] /\
  best_metric (final self calls) = best_metric self /\
  best_epoch (final self calls) = best_epoch self.
Proof.
  revert self. induction calls as [|kwargs rest IH]; intros self Hb Hall; [easy|].
  cbn [monitored_values] in Hall.
  destruct (monitored_value self kwargs) as [v|] eqn:Hv.
  - apply Forall_cons in Hall as [Hno Hall].
    rewrite (saved_by_returned _ _ _ _ Hv), (final_returned _ _ _ _ Hv).
    destruct (on_epoch_end_returned _ _ _ Hv) as (_ & (_ & _ & Hm & Hs) & Hcase).
    rewrite Hb, Hno in Hcase. cbn [andb] in Hcase. destruct Hcase as (Hbm & Hbe & Hsv).
    rewrite (Hsv eq_refl). cbn [app]. rewrite <- Hbm, <- Hbe.
    apply IH; [congruence|]. now rewrite Hm, Hbm.
  - destruct (final_raised self kwargs rest Hv) as [-> ->]. easy.
Qed.

End ModelCheckpointMore.

Section ModelCheckpointExtras.
Import difflib ModelCheckpoint.
Context `{SequenceMatcher}.
Local Open Scope Z_scope.

(** X5: a [mode] other than "min" and "max" is accepted by [__init__] but
    switches best-only checkpointing off: no call of any sequence saves, and
    [best_metric] and [best_epoch] never change. *)
Theorem checkpoint_unknown_mode_never_saves self calls :
  save_best_only self = true ->
  mode self <> "min" -> mode self <> "max" ->
  saved_by self calls = [] /\
  best_metric (final self calls) = best_metric self /\
  best_epoch (final self calls) = best_epoch self.
Proof.
  intros Hb Hmin Hmax. apply run_without_improvement; [assumption|].
  apply Forall_forall. intros v _. unfold strictly_improves.
  now rewrite !bool_decide_eq_false_2.
Qed.

(** X6: with [save_best_only=False] the best value is not tracked: no
    sequence of calls changes [best_metric] or [best_epoch]. *)
Theorem checkpoint_every_epoch_tracks_no_best self calls :
  save_best_only self = false ->
  best_metric (final self calls) = best_metric self /\
  best_epoch (final self calls) = best_epoch self.
Proof.
  revert self. induction calls as [|kwargs rest IH]; intros self Hb; [easy|].
  destruct (monitored_value self kwargs) as [v|] eqn:Hv.
  - rewrite (final_returned _ _ _ _ Hv).
    destruct (on_epoch_end_returned _ _ _ Hv) as (_ & (_ & _ & _ & Hs) & Hcase).
    rewrite Hb in Hcase. cbn [andb] in Hcase. destruct Hcase as (<- & <- & _).
    apply IH. congruence.
  - now destruct (final_raised self kwargs rest Hv) as [-> _].
Qed.

(** In either mode: an improving value is no worse than the old best and
    is not NaN; a value that does not improve is no better than the best;
    [no_worse] is a preorder on the floats that are not NaN. *)
Lemma improves_no_worse m v b :
  m = "min" \/ m = "max" ->
  strictly_improves m v b = true -> no_worse m v b = true /\ isnan v = false.
Proof.
  unfold strictly_improves, no_worse, isnan. rewrite negb_false_iff.
  intros [-> | ->]; cbn; intros Himp.
  - split; [now apply Py.lt_le | eapply Py.lt_le_refl_l, Himp].
  - split; [now apply Py.lt_le | eapply lt_le_refl_r, Himp].
Qed.

Lemma not_improves_no_worse m v b :
  m = "min" \/ m = "max" ->
  isnan v = false -> isnan b = false ->
  strictly_improves m v b = false -> no_worse m b v = true.
Proof.
  unfold strictly_improves, no_worse, isnan. rewrite !negb_false_iff.
  intros [-> | ->]; cbn; intros Hv Hb Himp; now apply le_total.
Qed.

Lemma no_worse_trans m a b c :
  no_worse m a b = true -> no_worse m b c = true -> no_worse m a c = true.
Proof.
  unfold no_worse. case_bool_decide; intros H1 H2; eapply Py.le_trans; eassumption.
Qed.

Lemma no_worse_refl m a : isnan a = false -> no_worse m a a = true.
Proof. unfold no_worse, isnan. rewrite negb_false_iff. now case_bool_decide. Qed.

(** With [save_best_only] in "min" or "max" mode, starting from a best
    that is not NaN, after any sequence of calls [best_metric] is not NaN,
    no worse than it was and no worse than any value the calls compared,
    NaN values apart. *)
Lemma best_metric_bound self calls :
  save_best_only self = true ->
  mode self = "min" \/ mode self = "max" ->
  isnan (best_metric self) = false ->
  isnan (best_metric (final self calls)) = false /\
  no_worse (mode self) (best_metric (final self calls)) (best_metric self) = true /\
  Forall (fun v => isnan v = false ->
                   no_worse (mode self) (best_metric (final self calls)) v = true)
         (monitored_values self calls).
Proof.
  revert self. induction calls as [|kwargs rest IH]; intros self Hb Hmode Hnan.
  - cbn. split; [assumption|]. split; [now apply no_worse_refl | constructor].
  - cbn [monitored_values].
    destruct (monitored_value self kwargs) as [v|] eqn:Hv.
    + rewrite (final_returned _ _ _ _ Hv).
      destruct (on_epoch_end_returned _ _ _ Hv) as (_ & (_ & _ & Hm & Hs) & Hcase).
      set (s' := self_after (on_epoch_end self kwargs)) in *.
      rewrite Hb in Hcase. cbn [andb] in Hcase.
      assert (Hstep : isnan (best_metric s') = false /\
                      no_worse (mode self) (best_metric s') (best_metric self) = true /\
                      (isnan v = false -> no_worse (mode self) (best_metric s') v = true)).
      { destruct (strictly_improves _ _ _) eqn:Himp.
        - destruct Hcase as (-> & _). destruct (improves_no_worse _ _ _ Hmode Himp).
          repeat split; auto using no_worse_refl.
        - destruct Hcase as (-> & _). repeat split; auto using no_worse_refl.
          intros Hv'. now apply not_improves_no_worse. }
      destruct Hstep as (Hn' & Hle & Hhead).
      destruct (IH s') as (Hfin & Hfle & Hrest); [congruence | congruence | assumption |].
      rewrite Hm in Hfle, Hrest.
      split; [assumption|]. split; [eapply no_worse_trans; eassumption|].
      constructor; [|assumption]. intros Hv'. eapply no_worse_trans; eauto.
    + destruct (final_raised self kwargs rest Hv) as [-> _].
      split; [assumption|]. split; [now apply no_worse_refl | constructor].
Qed.

(** An improvement on the best improves on whatever the best is no worse
    than, and only "min" and "max" modes have improvements. *)
Lemma improves_below m v b u :
  strictly_improves m v b = true -> no_worse m b u = true -> strictly_improves m v u = true.
Proof.
  unfold strictly_improves, no_worse, Py.gt. repeat case_bool_decide; try discriminate.
  - apply Py.lt_le_trans.
  - intros Hbv Hub. eapply le_lt_trans; eassumption.
Qed.

Lemma improves_known_mode m v b :
  strictly_improves m v b = true -> m = "min" \/ m = "max".
Proof. unfold strictly_improves. repeat case_bool_decide; auto. discriminate. Qed.

(** No sequence of calls changes where and how the instance saves. *)
Lemma final_same_target self calls : same_target (final self calls) self.
Proof.
  revert self. induction calls as [|kwargs rest IH]; intros self; [now repeat split|].
  destruct (monitored_value self kwargs) as [v|] eqn:Hv.
  - rewrite (final_returned _ _ _ _ Hv).
    eapply same_target_trans; [apply IH | apply on_epoch_end_same_target].
  - destruct (final_raised self kwargs rest Hv) as [-> _]. now repeat split.
Qed.

(** The values seen so far: the best the instance started with, then the
    value each call compared. *)
Definition seen (self : t) (calls : list Kwargs) : list float :=
  best_metric self :: monitored_values self calls.

(** [best_metric] is always one of the values seen. *)
Lemma best_metric_attained self calls :
  save_best_only self = true -> best_metric (final self calls) ∈ seen self calls.
Proof.
  unfold seen. revert self. induction calls as [|kwargs rest IH]; intros self Hb.
  - apply list_elem_of_here.
  - cbn [monitored_values]. destruct (monitored_value self kwargs) as [v|] eqn:Hv.
    + rewrite (final_returned _ _ _ _ Hv).
      destruct (on_epoch_end_returned _ _ _ Hv) as (_ & (_ & _ & _ & Hs) & Hcase).
      set (s' := self_after (on_epoch_end self kwargs)) in *.
      rewrite Hb in Hcase. cbn [andb] in Hcase.
      specialize (IH s' ltac:(congruence)).
      apply elem_of_cons in IH as [-> | Hin].
      * destruct (strictly_improves _ _ _).
        -- destruct Hcase as (-> & _). apply list_elem_of_further, list_elem_of_here.
        -- destruct Hcase as (-> & _). apply list_elem_of_here.
      * now do 2 apply list_elem_of_further.
    + destruct (final_raised self kwargs rest Hv) as [-> _]. apply list_elem_of_here.
Qed.

(** X7: with [save_best_only] in "min" or "max" mode, starting from a best
    that is not NaN (as [__init__] gives), after any sequence of calls
    [best_metric] is the optimum of the values seen: it is one of them (the
    initial best or a value a call compared), it is not NaN, and it is no
    worse than any of them, NaN values apart.  So it is the least value
    seen in "min" mode and the greatest in "max" mode. *)
Theorem checkpoint_best_metric_is_optimum self calls :
  save_best_only self = true ->
  mode self = "min" \/ mode self = "max" ->
  isnan (best_metric self) = false ->
  best_metric (final self calls) ∈ seen self calls /\
  isnan (best_metric (final self calls)) = false /\
  Forall (fun v => isnan v = false ->
                   no_worse (mode self) (best_metric (final self calls)) v = true)
         (seen self calls).
Proof.
  intros Hb Hmode Hnan.
  destruct (best_metric_bound self calls Hb Hmode Hnan) as (Hfin & Hinit & Hall).
  split; [now apply best_metric_attained|]. split; [assumption|].
  unfold seen. constructor; [now intros _ | assumption].
Qed.

(** C5: with [save_best_only=True] a call saves exactly when the value it
    monitors strictly improves on the best seen so far (strictly less in
    "min" mode, strictly greater in "max" mode), and then to
    [<save_path>/<job_id>.pth]; otherwise it saves nothing.  The best seen
    so far is what [best_metric] holds: after any sequence of calls it is
    one of the values seen (the best the instance started with, or a value
    an earlier call compared) and no worse than any of them, so the next
    call saves exactly when its value strictly improves on every one of
    them, NaN values apart.  Over any sequence of calls every save goes to
    that one path, so the file holds what the last save wrote. *)
Theorem checkpoint_best_only_saves_on_improvement self :
  save_best_only self = true ->
  (forall kwargs,
     saved (on_epoch_end self kwargs) =
     match monitored_value self kwargs with
     | Some v =>
         if strictly_improves (mode self) v (best_metric self)
         then [(torch.state_dict (model_of kwargs),
                os_path.join (save_path self) (slurm_job_id self +:+ ".pth"))]
         else []
     | None => []
     end) /\
  (forall calls fs,
     Forall (fun call => call.2 = best_file self) (saved_by self calls) /\
     torch.save_all fs (saved_by self calls) =
     match last (saved_by self calls) with
     | Some call => <[best_file self := call.1]> fs
     | None => fs
     end) /\
  (isnan (best_metric self) = false ->
   forall calls kwargs,
     let now := final self calls in
     let improves_on_all_seen :=
       exists v, monitored_value now kwargs = Some v /\
                 Forall (fun u => isnan u = false ->
                                  strictly_improves (mode self) v u = true)
                        (seen self calls) in
     best_metric now ∈ seen self calls /\
     (mode self = "min" \/ mode self = "max" ->
      Forall (fun u => isnan u = false ->
                       no_worse (mode self) (best_metric now) u = true)
             (seen self calls)) /\
     (improves_on_all_seen ->
      saved (on_epoch_end now kwargs)
      = [(torch.state_dict (model_of kwargs), best_file self)]) /\
     (~ improves_on_all_seen -> saved (on_epoch_end now kwargs) = [])).
Proof.
  intros Hb. split; [|split].
  - intros kwargs. now apply saved_best_only.
  - intros calls fs. pose proof (saved_by_best_file self calls Hb) as Hall.
    split; [assumption | now apply save_all_one_path].
  - intros Hnan calls kwargs. cbv zeta. set (now := final self calls).
    pose proof (final_same_target self calls) as Hsame. fold now in Hsame.
    pose proof (same_target_best_file _ _ Hsame) as Hfile.
    destruct Hsame as (_ & _ & Hmode & Hsbo). rewrite Hb in Hsbo.
    pose proof (best_metric_attained self calls Hb) as Hin. fold now in Hin.
    assert (Hbound : mode self = "min" \/ mode self = "max" ->
              isnan (best_metric now) = false /\
              Forall (fun u => isnan u = false ->
                               no_worse (mode self) (best_metric now) u = true)
                     (seen self calls)).
    { intros Hm. destruct (best_metric_bound self calls Hb Hm Hnan) as (Hfin & Hinit & Hall).
      split; [assumption|]. unfold seen. constructor; [now intros _ | assumption]. }
    pose proof (saved_best_only now kwargs Hsbo) as Hsaved.
    rewrite Hmode, Hfile in Hsaved.
    split; [assumption|]. split; [intros Hm; now apply Hbound|]. split.
    + intros (v & Hv & Hall). rewrite Hsaved, Hv.
      assert (Hm : mode self = "min" \/ mode self = "max").
      { apply Forall_cons in Hall as [Hinit _].
        exact (improves_known_mode _ _ _ (Hinit Hnan)). }
      destruct (Hbound Hm) as [Hfin _].
      rewrite Forall_forall in Hall. now rewrite (Hall _ Hin Hfin).
    + intros Hnot. rewrite Hsaved.
      destruct (monitored_value now kwargs) as [v|] eqn:Hv; [|reflexivity].
      destruct (strictly_improves (mode self) v (best_metric now)) eqn:Himp; [|reflexivity].
      exfalso. apply Hnot. exists v. split; [reflexivity|].
      destruct (Hbound (improves_known_mode _ _ _ Himp)) as [_ Hall].
      eapply Forall_impl; [exact Hall|]. cbv beta. intros u Hu Hnu.
      eapply improves_below; [exact Himp | now apply Hu].
Qed.

(** Nothing saved means nothing improved. *)
Lemma nothing_saved_keeps_best self calls :
  save_best_only self = true ->
  saved_by self calls = [] ->
  best_metric (final self calls) = best_metric self /\
  best_epoch (final self calls) = best_epoch self.
Proof.
  revert self. induction calls as [|kwargs rest IH]; intros self Hb Hnone; [easy|].
  destruct (monitored_value self kwargs) as [v|] eqn:Hv.
  - rewrite (saved_by_returned _ _ _ _ Hv) in Hnone. apply app_eq_nil in Hnone as [Hr Hrest].
    rewrite (final_returned _ _ _ _ Hv).
    destruct (on_epoch_end_returned _ _ _ Hv) as (_ & (_ & _ & _ & Hs) & Hcase).
    rewrite Hb in Hcase. cbn [andb] in Hcase.
    destruct (strictly_improves _ _ _); [destruct Hcase as (_ & _ & Hsv); congruence|].
    destruct Hcase as (<- & <- & _). apply IH; congruence.
  - now destruct (final_raised self kwargs rest Hv) as [-> _].
Qed.

(** X8: with [save_best_only], after any sequence of calls the last save
    went to [<save_path>/<job_id>.pth] and was made by the call that set
    the current [best_metric] and [best_epoch]: the file holds the weights
    of the model passed at [best_epoch], whose monitored value is
    [best_metric], and no later call saved.  When nothing was saved the
    best is still the initial one. *)
Theorem checkpoint_file_is_best_epoch self calls :
  save_best_only self = true ->
  match last (saved_by self calls) with
  | Some (weights, path) =>
      path = best_file self /\
      exists before kwargs later,
        calls = before ++ kwargs :: later /\
        weights = torch.state_dict (model_of kwargs) /\
        monitored_value (final self before) kwargs = Some (best_metric (final self calls)) /\
        best_epoch (final self calls) = epoch_of kwargs /\
        saved_by (final self (before ++ [kwargs])) later = []
  | None =>
      best_metric (final self calls) = best_metric self /\
      best_epoch (final self calls) = best_epoch self
  end.
Proof.
  revert self. induction calls as [|kwargs rest IH]; intros self Hb; [easy|].
  destruct (monitored_value self kwargs) as [v|] eqn:Hv.
  - rewrite (saved_by_returned _ _ _ _ Hv), (final_returned _ _ _ _ Hv), last_app.
    destruct (on_epoch_end_returned _ _ _ Hv) as (_ & Hsame & Hcase).
    set (s' := self_after (on_epoch_end self kwargs)) in *.
    assert (Hb' : save_best_only s' = true) by (destruct Hsame as (_ & _ & _ & ->); exact Hb).
    specialize (IH s' Hb').
    destruct (last (saved_by s' rest)) as [[weights path]|] eqn:Hlast.
    + destruct IH as (-> & before & kw & later & -> & -> & Hmv & Hbe & Hlater).
      split; [now apply same_target_best_file|].
      exists (kwargs :: before), kw, later. cbn [app].
      rewrite !(final_returned _ _ _ _ Hv). auto.
    + apply last_None in Hlast. rewrite Hb in Hcase. cbn [andb] in Hcase.
      destruct (nothing_saved_keeps_best s' rest Hb' Hlast) as [Hbm Hbe].
      rewrite Hbm, Hbe in *.
      destruct (strictly_improves _ _ _).
      * destruct Hcase as (Hm' & He' & ->). cbn [last]. split; [reflexivity|].
        exists [], kwargs, rest. cbn [app]. rewrite (final_returned _ _ _ _ Hv).
        repeat split; auto. now rewrite Hm'.
      * destruct Hcase as (Hm' & He' & Hsv). rewrite (Hsv eq_refl). cbn [last].
        rewrite Hm', He'. auto.
  - destruct (final_raised self kwargs rest Hv) as [-> ->]. easy.
Qed.

End ModelCheckpointExtras.

Section ModelCheckpointEdges.
Import difflib ModelCheckpoint.
Context `{SequenceMatcher}.
Local Open Scope Z_scope.

(** X9: in "max" mode a key missing at an epoch other than 1 is read as
    positive infinity, which beats any best below infinity: the call saves
    the current weights and records infinity as [best_metric], and from
    then on no call ever saves again. *)
Theorem checkpoint_max_mode_missing_key self kwargs later :
  save_best_only self = true ->
  mode self = "max" ->
  epoch_of kwargs <> 1 ->
  missing kwargs (monitor self) ->
  Py.lt (best_metric self) Py.inf = true ->
  let r := on_epoch_end self kwargs in
  saved r = [(torch.state_dict (model_of kwargs), best_file self)] /\
  best_metric (self_after r) = Py.inf /\
  saved_by (self_after r) later = [] /\
  best_metric (final (self_after r) later) = Py.inf.
Proof.
  intros Hb Hmode He Hmiss Hlt r.
  assert (Hv : monitored_value self kwargs = Some Py.inf).
  { unfold monitored_value. rewrite find_monitor_other_epoch by assumption.
    f_equal. now apply logs_get_missing. }
  destruct (on_epoch_end_returned _ _ _ Hv) as (_ & (_ & _ & Hm & Hs) & Hcase).
  fold r in Hm, Hs, Hcase. rewrite Hb, Hmode in Hcase.
  unfold strictly_improves in Hcase. cbn [andb] in Hcase.
  rewrite bool_decide_eq_false_2, bool_decide_eq_true_2 in Hcase by done.
  unfold Py.gt in Hcase. fold (Py.lt (best_metric self) Py.inf) in Hcase. rewrite Hlt in Hcase.
  destruct Hcase as (Hbm & _ & Hsv). split; [assumption|]. split; [assumption|].
  destruct (run_without_improvement (self_after r) later) as (Hnone & Hkeep & _).
  - congruence.
  - apply Forall_forall. intros v _. unfold strictly_improves. rewrite Hm, Hmode, Hbm.
    rewrite bool_decide_eq_false_2, bool_decide_eq_true_2 by done. apply Py.gt_inf_r.
  - split; [assumption | congruence].
Qed.

(** X10: the two naming schemes never meet: for instances with the same
    job id and directory, the best-only file differs from every per-epoch
    file. *)
Theorem checkpoint_files_never_collide s1 s2 epoch :
  slurm_job_id s1 = slurm_job_id s2 ->
  save_path s1 = save_path s2 ->
  best_file s1 <> epoch_file s2 epoch.
Proof.
  intros Hj Hp Heq. unfold best_file, epoch_file in Heq. rewrite Hj, Hp in Heq.
  apply join_prefix_inj in Heq; [|reflexivity..].
  apply (f_equal (String.get 0)) in Heq. discriminate.
Qed.

Lemma find_monitor_epoch_1 self logs s :
  find_monitor self logs 1 = inr s -> is_Some (logs !! monitor s).
Proof.
  intros Hf. destruct (find_monitor_inr _ _ _ _ Hf) as [_ [-> | (_ & _ & Hin)]]; [|assumption].
  unfold find_monitor in Hf. rewrite bool_decide_eq_true_2 in Hf by reflexivity.
  destruct (logs !! monitor self) eqn:Hm; [eauto|].
  destruct (get_close_matches _ _ _ _) as [|k ?] eqn:Hk; [discriminate|].
  destruct (Py.truthy k); [|discriminate]. injection Hf as Hf.
  apply (f_equal monitor) in Hf. cbn in Hf.
  assert (Hin : k ∈ keys logs).
  { eapply (get_close_matches_elem _ _ 1 0). rewrite Hk. apply list_elem_of_here. }
  apply elem_of_keys in Hin. rewrite Hf, Hm in Hin. exact Hin.
Qed.

Lemma monitor_after self kwargs s :
  find_monitor self (logs_of kwargs) (epoch_of kwargs) = inr s ->
  monitor (self_after (on_epoch_end self kwargs)) = monitor s.
Proof.
  intros Hf. rewrite (on_epoch_end_return _ _ _ Hf). cbv zeta.
  destruct (save_best_only s); [destruct (strictly_improves _ _ _)|]; reflexivity.
Qed.

(** X11: a call at epoch 1 that returns has compared a value that really
    is in [logs], stored under the key the instance monitors from then on;
    the infinity default is never used at epoch 1. *)
Theorem checkpoint_epoch_1_compares_logged_value self kwargs v :
  epoch_of kwargs = 1 ->
  monitored_value self kwargs = Some v ->
  logs_of kwargs !! monitor (self_after (on_epoch_end self kwargs)) = Some v.
Proof.
  intros He. unfold monitored_value.
  destruct (find_monitor self (logs_of kwargs) (epoch_of kwargs)) as [e|s] eqn:Hf; [discriminate|].
  intros [= <-]. rewrite (monitor_after _ _ _ Hf). rewrite He in Hf.
  destruct (find_monitor_epoch_1 _ _ _ Hf) as [x Hx]. unfold logs_get. now rewrite Hx.
Qed.

(** X12: a NaN metric never counts as an improvement, in any mode: with
    [save_best_only] the call saves nothing and keeps [best_metric] and
    [best_epoch]. *)
Theorem checkpoint_ignores_nan self kwargs v :
  save_best_only self = true ->
  monitored_value self kwargs = Some v ->
  isnan v = true ->
  let r := on_epoch_end self kwargs in
  out r = Return false /\ saved r = [] /\
  best_metric (self_after r) = best_metric self /\
  best_epoch (self_after r) = best_epoch self.
Proof.
  intros Hb Hv Hnan r.
  destruct (on_epoch_end_returned _ _ _ Hv) as (Hout & _ & Hcase). fold r in Hout, Hcase.
  assert (Hno : strictly_improves (mode self) v (best_metric self) = false).
  { unfold strictly_improves, Py.gt. repeat case_bool_decide; try reflexivity.
    - now apply lt_nan_l.
    - fold (Py.lt (best_metric self) v). now apply lt_nan_r. }
  rewrite Hb, Hno in Hcase. cbn [andb] in Hcase. destruct Hcase as (? & ? & Hsv).
  repeat split; auto.
Qed.

End ModelCheckpointEdges.

(** ** The further properties on concrete runs *)

Section ConcreteMore.
Import difflib ModelCheckpoint.
#[local] Existing Instance longest_blocks.
Local Open Scope Z_scope.

(** A call that logs [val_loss] at the given epoch. *)
Definition val_loss_call (v : float) (epoch : Z) : Kwargs :=
  epoch_call {[ "val_loss" := v ]} epoch.

Lemma checkpoint_unknown_mode_never_saves_witness :
  let self := init "123" "/ckpt" "val_loss" "MAX" true in
  let calls := [val_loss_call 1.0 1; val_loss_call 2.0 2] in
  saved_by self calls = [] /\
  best_metric (final self calls) = best_metric self /\
  best_epoch (final self calls) = best_epoch self.
Proof.
  refine (checkpoint_unknown_mode_never_saves
            (init "123" "/ckpt" "val_loss" "MAX" true)
            [val_loss_call 1.0 1; val_loss_call 2.0 2] eq_refl _ _);
    vm_compute; discriminate.
Defined.

Lemma checkpoint_every_epoch_tracks_no_best_witness :
  let self := init "123" "/ckpt" "val_loss" "min" false in
  let calls := [val_loss_call 1.0 1; val_loss_call 0.5 2] in
  best_metric (final self calls) = best_metric self /\
  best_epoch (final self calls) = best_epoch self.
Proof.
  exact (checkpoint_every_epoch_tracks_no_best
           (init "123" "/ckpt" "val_loss" "min" false)
           [val_loss_call 1.0 1; val_loss_call 0.5 2] eq_refl).
Defined.

Lemma checkpoint_best_metric_is_optimum_witness :
  let self := init "123" "/ckpt" "val_loss" "min" true in
  let calls := [val_loss_call 2.0 1; val_loss_call nan 2; val_loss_call 1.0 3;
                val_loss_call 3.0 4] in
  best_metric (final self calls) ∈ seen self calls /\
  isnan (best_metric (final self calls)) = false /\
  Forall (fun v => isnan v = false ->
                   no_worse (mode self) (best_metric (final self calls)) v = true)
         (seen self calls).
Proof.
  exact (checkpoint_best_metric_is_optimum
           (init "123" "/ckpt" "val_loss" "min" true)
           [val_loss_call 2.0 1; val_loss_call nan 2; val_loss_call 1.0 3;
            val_loss_call 3.0 4]
           eq_refl (or_introl eq_refl) eq_refl).
Defined.

Lemma checkpoint_best_only_saves_on_improvement_witness :
  let self := init "123" "/ckpt" "val_loss" "min" true in
  let calls := [val_loss_call 2.0 1; val_loss_call 1.0 2] in
  let now := final self calls in
  saved_by self (calls ++ [val_loss_call 1.5 3; val_loss_call 0.5 4])
  = [([], "/ckpt/123.pth"); ([], "/ckpt/123.pth"); ([], "/ckpt/123.pth")] /\
  best_metric now ∈ seen self calls /\
  saved (on_epoch_end now (val_loss_call 0.5 3)) = [([], best_file self)] /\
  saved (on_epoch_end now (val_loss_call 1.5 3)) = [].
Proof.
  pose proof (proj2 (proj2 (checkpoint_best_only_saves_on_improvement
                              (init "123" "/ckpt" "val_loss" "min" true) eq_refl))
                eq_refl [val_loss_call 2.0 1; val_loss_call 1.0 2]) as Hrun.
  split; [reflexivity|]. split; [exact (proj1 (Hrun (val_loss_call 0.5 3)))|]. split.
  - apply (proj1 (proj2 (proj2 (Hrun (val_loss_call 0.5 3))))).
    exists 0.5%float. split; [reflexivity|]. repeat constructor.
  - apply (proj2 (proj2 (proj2 (Hrun (val_loss_call 1.5 3))))).
    intros (v & Hv & Hall). injection Hv as <-.
    apply Forall_cons in Hall as [_ Hall]. apply Forall_cons in Hall as [_ Hall].
    apply Forall_cons in Hall as [Hone _]. specialize (Hone eq_refl). discriminate.
Defined.

Lemma checkpoint_file_is_best_epoch_witness :
  let self := init "123" "/ckpt" "val_loss" "min" true in
  let calls := [val_loss_call 2.0 1; val_loss_call 1.0 2; val_loss_call 3.0 3] in
  match last (saved_by self calls) with
  | Some (weights, path) =>
      path = best_file self /\
      exists before kwargs later,
        calls = before ++ kwargs :: later /\
        weights = torch.state_dict (model_of kwargs) /\
        monitored_value (final self before) kwargs = Some (best_metric (final self calls)) /\
        best_epoch (final self calls) = epoch_of kwargs /\
        saved_by (final self (before ++ [kwargs])) later = []
  | None =>
      best_metric (final self calls) = best_metric self /\
      best_epoch (final self calls) = best_epoch self
  end.
Proof.
  exact (checkpoint_file_is_best_epoch
           (init "123" "/ckpt" "val_loss" "min" true)
           [val_loss_call 2.0 1; val_loss_call 1.0 2; val_loss_call 3.0 3] eq_refl).
Defined.

Lemma checkpoint_max_mode_missing_key_witness :
  let self := init "123" "/ckpt" "val_acc" "max" true in
  let later := [epoch_call {[ "val_acc" := 0.9%float ]} 3] in
  let r := on_epoch_end self (epoch_call ∅ 2) in
  saved r = [(torch.state_dict (model_of (epoch_call ∅ 2)), best_file self)] /\
  best_metric (self_after r) = Py.inf /\
  saved_by (self_after r) later = [] /\
  best_metric (final (self_after r) later) = Py.inf.
Proof.
  exact (checkpoint_max_mode_missing_key
           (init "123" "/ckpt" "val_acc" "max" true) (epoch_call ∅ 2)
           [epoch_call {[ "val_acc" := 0.9%float ]} 3]
           eq_refl eq_refl ltac:(vm_compute; discriminate) eq_refl eq_refl).
Defined.

Lemma checkpoint_files_never_collide_witness :
  best_file (init "123" "/ckpt" "val_loss" "min" true)
  <> epoch_file (init "123" "/ckpt" "val_loss" "min" false) 3.
Proof.
  exact (checkpoint_files_never_collide
           (init "123" "/ckpt" "val_loss" "min" true)
           (init "123" "/ckpt" "val_loss" "min" false) 3 eq_refl eq_refl).
Defined.

Lemma checkpoint_epoch_1_compares_logged_value_witness :
  let self := init "123" "/ckpt" "val_loss" "min" true in
  let kwargs := epoch_call {[ "loss" := 1.5%float ]} 1 in
  logs_of kwargs !! monitor (self_after (on_epoch_end self kwargs)) = Some 1.5%float.
Proof.
  exact (checkpoint_epoch_1_compares_logged_value
           (init "123" "/ckpt" "val_loss" "min" true)
           (epoch_call {[ "loss" := 1.5%float ]} 1) 1.5%float eq_refl eq_refl).
Defined.

Lemma checkpoint_ignores_nan_witness :
  let self := init "123" "/ckpt" "val_loss" "max" true in
  let r := on_epoch_end self (val_loss_call nan 2) in
  out r = Return false /\ saved r = [] /\
  best_metric (self_after r) = best_metric self /\
  best_epoch (self_after r) = best_epoch self.
Proof.
  exact (checkpoint_ignores_nan
           (init "123" "/ckpt" "val_loss" "max" true) (val_loss_call nan 2) nan
           eq_refl eq_refl eq_refl).
Defined.

End ConcreteMore.

(** ** EarlyStopping with the default [delta=0] *)

Section DefaultDelta.
Import Binary64 EarlyStopping.
Local Open Scope Z_scope.

(** Subtracting zero changes neither the order key nor NaN-ness. *)
Lemma fkey_sub_zero b : fkey (b - 0) = fkey b.
Proof.
  unfold fkey. cbv zeta. rewrite sub_spec. unfold SF64sub.
  change (Prim2SF 0%float) with (S754_zero false).
  destruct (Prim2SF b) as [[]|[]| |s m e]; reflexivity.
Qed.

Lemma lt_sub_zero v b : Py.lt v (b - 0) = Py.lt v b.
Proof. unfold Py.lt. now rewrite !ltb_fkey, fkey_sub_zero. Qed.

(** The values an instance that monitors "val_loss" has seen after [calls]:
    the infinity [__init__] stores, then what each call read from [logs]
    (infinity again for a missing key). *)
Definition losses_seen (calls : list Kwargs) : list float :=
  Py.inf :: ((fun kwargs => logs_get (default ∅ (kw_logs kwargs)) "val_loss") <$> calls).

Lemma losses_seen_snoc calls kwargs :
  losses_seen (calls ++ [kwargs])
  = losses_seen calls ++ [logs_get (default ∅ (kw_logs kwargs)) "val_loss"].
Proof. unfold losses_seen. now rewrite fmap_app. Qed.

(** X13: with the default [delta=0], after any sequence of calls on a
    fresh instance [best_loss] is the minimum of the values seen so far:
    it is one of them (the initial infinity or a value a call read from
    [logs]), it is not NaN, and it is below or equal to every one of them,
    NaN values apart. *)
Theorem early_stopping_default_delta_keeps_minimum p calls :
  let self := after (init p 0) calls in
  best_loss self ∈ losses_seen calls /\
  isnan (best_loss self) = false /\
  Forall (fun v => isnan v = false -> Py.le (best_loss self) v = true)
         (losses_seen calls).
Proof.
  cbv zeta. induction calls as [|kwargs calls IH] using rev_ind.
  - split; [apply list_elem_of_here|]. split; [reflexivity|].
    apply Forall_singleton. intros _. reflexivity.
  - destruct IH as (Hin & Hnan & Hall). rewrite after_snoc, losses_seen_snoc.
    pose proof (reachable_after p 0 calls) as [_ Hd _ _].
    destruct (configuration_kept (init p 0) calls) as (_ & _ & Hname & _).
    set (self := after (init p 0) calls) in *. cbn [metric_name init] in Hname.
    set (v := logs_get (default ∅ (kw_logs kwargs)) "val_loss").
    unfold isnan in Hnan. rewrite negb_false_iff in Hnan.
    assert (Hstep : (best_loss (on_epoch_end self kwargs).2 = v \/
                     best_loss (on_epoch_end self kwargs).2 = best_loss self) /\
                    Py.le (best_loss (on_epoch_end self kwargs).2) (best_loss self) = true /\
                    Py.le (best_loss (on_epoch_end self kwargs).2)
                          (best_loss (on_epoch_end self kwargs).2) = true /\
                    (isnan v = false -> Py.le (best_loss (on_epoch_end self kwargs).2) v = true)).
    { assert (Hread : logs_get (default ∅ (kw_logs kwargs)) (metric_name self) = v)
        by now rewrite Hname.
      assert (Htest : Py.lt (logs_get (default ∅ (kw_logs kwargs)) (metric_name self))
                        (best_loss self - delta self) = Py.lt v (best_loss self))
        by now rewrite Hread, Hd, lt_sub_zero.
      destruct (Py.lt v (best_loss self)) eqn:Hlt.
      - rewrite (on_epoch_end_improved self kwargs Htest), Hread.
        cbn [snd set_improved best_loss]. pose proof (Py.lt_le_refl_l _ _ Hlt).
        repeat split; auto using Py.lt_le.
      - assert (Hbest : best_loss (on_epoch_end self kwargs).2 = best_loss self).
        { destruct (Py.gt (logs_get (default ∅ (kw_logs kwargs)) (metric_name self))
                      (best_loss self + delta self)) eqn:Hgt.
          - now rewrite (on_epoch_end_worse self kwargs Htest Hgt).
          - now rewrite (on_epoch_end_plateau self kwargs Htest Hgt). }
        rewrite Hbest. repeat split; auto.
        unfold isnan. rewrite negb_false_iff. intros Hv. now apply le_total. }
    destruct Hstep as (Hcase & Hle & Hrefl & Hv). split; [|split].
    + apply elem_of_app. destruct Hcase as [-> | ->].
      * right. apply list_elem_of_here.
      * now left.
    + unfold isnan. now rewrite Hrefl.
    + apply Forall_app. split.
      * eapply Forall_impl; [exact Hall|]. cbv beta. intros u Hu Hn.
        eapply Py.le_trans; [exact Hle | now apply Hu].
      * now apply Forall_singleton.
Qed.

End DefaultDelta.

(** ** ModelCheckpoint when the caller passes no [epoch] *)

Section MissingEpoch.
Import difflib ModelCheckpoint.
Context `{SequenceMatcher}.
Local Open Scope Z_scope.

(** X14: [epoch] defaults to 0.  With [save_best_only=False] and calls
    that pass no [epoch], no call raises and every call saves to the same
    file [<save_path>/<job_id>_epoch_0.pth]: each save overwrites the one
    before, and the file ends up holding the weights of the last call. *)
Theorem checkpoint_without_epoch_overwrites self calls fs :
  save_best_only self = false ->
  Forall (fun kwargs => kw_epoch kwargs = None) calls ->
  saved_by self calls =
    (fun kwargs => (torch.state_dict (model_of kwargs), epoch_file self 0)) <$> calls /\
  torch.save_all fs (saved_by self calls) =
    match last calls with
    | Some kwargs => <[epoch_file self 0 := torch.state_dict (model_of kwargs)]> fs
    | None => fs
    end.
Proof.
  intros Hb Hall.
  assert (Heq : saved_by self calls =
                (fun kwargs => (torch.state_dict (model_of kwargs), epoch_file self 0)) <$> calls).
  { revert self Hb. induction Hall as [|kwargs rest He _ IH]; intros self Hb; [reflexivity|].
    assert (Hepoch : epoch_of kwargs = 0) by (unfold epoch_of; now rewrite He).
    assert (Hf : find_monitor self (logs_of kwargs) (epoch_of kwargs) = inr self)
      by (apply find_monitor_other_epoch; lia).
    rewrite saved_by_cons, (on_epoch_end_return _ _ _ Hf). cbv zeta.
    rewrite Hb, Hepoch. cbn [out saved self_after app fmap list_fmap]. f_equal.
    now apply IH. }
  split; [assumption|].
  rewrite (save_all_one_path fs (epoch_file self 0)).
  - rewrite Heq, fmap_last. now destruct (last calls).
  - rewrite Heq. apply Forall_fmap, Forall_forall. now intros kw _.
Qed.

End MissingEpoch.

Section ConcreteMissingEpoch.
Import difflib ModelCheckpoint.
#[local] Existing Instance longest_blocks.

Lemma checkpoint_without_epoch_overwrites_witness :
  let self := init "123" "/ckpt" "val_loss" "min" false in
  let calls := [log_val_loss 2.0; log_val_loss 1.0] in
  saved_by self calls =
    (fun kwargs => (torch.state_dict (model_of kwargs), epoch_file self 0)) <$> calls /\
  torch.save_all ∅ (saved_by self calls) =
    match last calls with
    | Some kwargs => <[epoch_file self 0 := torch.state_dict (model_of kwargs)]> ∅
    | None => ∅
    end.
Proof.
  apply (checkpoint_without_epoch_overwrites
           (init "123" "/ckpt" "val_loss" "min" false)
           [log_val_loss 2.0; log_val_loss 1.0] ∅ eq_refl).
  repeat constructor.
Defined.

End ConcreteMissingEpoch.
